(** * Explicit finite-difference steppers for 1-D pollutant transport

    Shallow embedding of the numerical core of the notebook
    [notebooks/01_Fundamentos_Transporte_Contaminantes.ipynb]:
    [advection_step], [diffusion_step], [reaction_step], [adr_step], the
    reaction time loop of [simulate_reaction], the time-step expressions of
    [simulate_adr] and [simulate_diffusion], and the analytical Gaussian of
    [diffusion_multiple_cases].

    Modelling choices.
    - Scalars are real numbers: the notebook's float arithmetic is idealised
      to exact arithmetic in [R] (no rounding, no nan, no inf).
    - A numpy array is a heap cell holding a [list R]; a Python variable
      bound to an array is a location.  [np.zeros_like] allocates a fresh
      cell, [C_new[i] = v] overwrites one entry of a cell.
    - Python exceptions are results: an index out of range gives
      [IndexError], a float division by zero gives [ZeroDivisionError] (the
      notebook's [dx] and [dt] are Python floats).
    - Indices are integers in [Z] with Python's wrap-around for negative
      indices ([C[-1]] is the last entry). *)

From Stdlib Require Import Reals Lra Lia ZArith.
From stdpp Require Import gmap list.

(** ** Heap of arrays and the exception-state monad *)

(** The exceptions the steppers can raise.  [DanglingReference] stands for a
    location the heap does not hold; Python has none, and no call on a cell
    of the heap produces it: it only makes the primitives total. *)
Inductive PyError : Set :=
  | IndexError
  | ZeroDivisionError
  | DanglingReference.

Abbreviation loc := positive.
Abbreviation heap := (gmap positive (list R)).

Definition M (A : Type) : Type := heap -> (PyError + A) * heap.

Definition ret {A} (a : A) : M A := fun h => (inr a, h).
Definition bind {A B} (m : M A) (k : A -> M B) : M B :=
  fun h => match m h with
           | (inr a, h') => k a h'
           | (inl e, h') => (inl e, h')
           end.

Declare Scope py_scope.
Delimit Scope py_scope with py.
Notation "'let*' x ':=' m 'in' k" := (bind m (fun x => k))
  (at level 10, x name, m at level 100, k at level 200) : py_scope.
Notation "m ';;;' k" := (bind m (fun _ => k))
  (at level 100, k at level 200, right associativity) : py_scope.

#[global] Instance R_eq_dec : EqDecision R := Req_EM_T.

(** [a / b] on Python floats. *)
Definition float_div (a b : R) : PyError + R :=
  if decide (b = 0%R) then inl ZeroDivisionError else inr (a / b)%R.

Definition fdiv (a b : R) : M R := fun h => (float_div a b, h).

(** Position of index [i] in a sequence of length [n], Python style. *)
Definition py_index (n : nat) (i : Z) : option nat :=
  if decide (0 <= i < Z.of_nat n)%Z then Some (Z.to_nat i)
  else if decide (- Z.of_nat n <= i < 0)%Z then Some (Z.to_nat (Z.of_nat n + i))
  else None.

(** [len(C)] *)
Definition len (p : loc) : M Z :=
  fun h => match h !! p with
           | Some l => (inr (Z.of_nat (length l)), h)
           | None => (inl DanglingReference, h)
           end.

(** [C[i]] *)
Definition getitem (p : loc) (i : Z) : M R :=
  fun h => match h !! p with
           | Some l =>
               match py_index (length l) i with
               | Some j => match l !! j with
                           | Some v => (inr v, h)
                           | None => (inl IndexError, h)
                           end
               | None => (inl IndexError, h)
               end
           | None => (inl DanglingReference, h)
           end.

(** [C[i] = v] *)
Definition setitem (p : loc) (i : Z) (v : R) : M unit :=
  fun h => match h !! p with
           | Some l =>
               match py_index (length l) i with
               | Some j => (inr tt, <[p := <[j := v]> l]> h)
               | None => (inl IndexError, h)
               end
           | None => (inl DanglingReference, h)
           end.

(** Allocation of a new array. *)
Definition alloc (l : list R) : M loc :=
  fun h => let p := fresh (dom h) in (inr p, <[p := l]> h).

(** [np.zeros_like(C)] *)
Definition zeros_like (p : loc) : M loc :=
  fun h => match h !! p with
           | Some l => alloc (replicate (length l) 0%R) h
           | None => (inl DanglingReference, h)
           end.

(** [for i in js: body(i)] *)
Fixpoint for_each (js : list Z) (body : Z -> M unit) : M unit :=
  match js with
  | [] => ret tt
  | i :: js' => bind (body i) (fun _ => for_each js' body)
  end.

(** [range(lo, hi)] *)
Definition range (lo hi : Z) : list Z := seqZ lo (hi - lo).

Open Scope py_scope.

(** ** The steppers

    Each body follows its Python source statement by statement; the reads
    of one expression are in Python's left-to-right evaluation order, so
    that the first exception raised is the one Python raises. *)

(** [advection_step(C, U, dx, dt)]: first-order upwind scheme. *)
Definition advection_step (C : loc) (U dx dt : R) : M loc :=
  let* n := len C in
  let* C_new := zeros_like C in
  for_each (range 1 n) (fun i =>
    let* c_i := getitem C i in
    let* q := fdiv dt dx in
    let* c_i' := getitem C i in
    let* c_im := getitem C (i - 1) in
    setitem C_new i (c_i - U * q * (c_i' - c_im))%R) ;;;
  let* c_0 := getitem C 0 in
  setitem C_new 0 c_0 ;;;
  ret C_new.

(** [diffusion_step(C, D, dx, dt)]: central differences, one-sided at the
    two ends. *)
Definition diffusion_step (C : loc) (D dx dt : R) : M loc :=
  let* n := len C in
  let* C_new := zeros_like C in
  for_each (range 1 (n - 1)) (fun i =>
    let* c_i := getitem C i in
    let* q := fdiv dt (dx ^ 2) in
    let* c_ip := getitem C (i + 1) in
    let* c_i' := getitem C i in
    let* c_im := getitem C (i - 1) in
    setitem C_new i (c_i + D * q * (c_ip - 2 * c_i' + c_im))%R) ;;;
  (let* c_0 := getitem C 0 in
   let* q := fdiv dt (dx ^ 2) in
   let* c_1 := getitem C 1 in
   let* c_0' := getitem C 0 in
   setitem C_new 0 (c_0 + D * q * (c_1 - c_0'))%R) ;;;
  (let* c_l := getitem C (n - 1) in
   let* q := fdiv dt (dx ^ 2) in
   let* c_p := getitem C (n - 2) in
   let* c_l' := getitem C (n - 1) in
   setitem C_new (n - 1) (c_l + D * q * (c_p - c_l'))%R) ;;;
  ret C_new.

(** The whole array held by [p] (numpy reads it for a vectorised operation). *)
Definition load (p : loc) : M (list R) :=
  fun h => match h !! p with
           | Some l => (inr l, h)
           | None => (inl DanglingReference, h)
           end.

(** [reaction_step(C, k, dt)], that is [C * np.exp(-k * dt)]: broadcasting
    builds a new array. *)
Definition reaction_step (C : loc) (k dt : R) : M loc :=
  let* l := load C in
  alloc (map (fun c => c * exp (- k * dt))%R l).

(** [adr_step(C, U, D, k, dx, dt)]: the three increments are added at the
    interior points; the first entry is kept and the last one copies its
    left neighbour. *)
Definition adr_step (C : loc) (U D k dx dt : R) : M loc :=
  let* n := len C in
  let* C_new := zeros_like C in
  for_each (range 1 (n - 1)) (fun i =>
    let* advection :=
      (let* q := fdiv dt dx in
       let* c_i := getitem C i in
       let* c_im := getitem C (i - 1) in
       ret (- U * q * (c_i - c_im))%R) in
    let* diffusion :=
      (let* q := fdiv dt (dx ^ 2) in
       let* c_ip := getitem C (i + 1) in
       let* c_i := getitem C i in
       let* c_im := getitem C (i - 1) in
       ret (D * q * (c_ip - 2 * c_i + c_im))%R) in
    let* reaction :=
      (let* c_i := getitem C i in
       ret (- k * dt * c_i)%R) in
    let* c_i := getitem C i in
    setitem C_new i (c_i + advection + diffusion + reaction)%R) ;;;
  (let* c_0 := getitem C 0 in setitem C_new 0 c_0) ;;;
  (let* c_p := getitem C (n - 2) in setitem C_new (n - 1) c_p) ;;;
  ret C_new.

(** ** The time loop, the time step and the analytical solution *)

(** [for t in range(1, n+1): C = step(C)], the time loop of the drivers
    without the snapshots they keep for plotting. *)
Fixpoint time_loop (step : loc -> M loc) (n : nat) (C : loc) : M loc :=
  match n with
  | O => ret C
  | S n' => let* C' := step C in time_loop step n' C'
  end.

(** [safety * min(dx/U, dx**2/(2*D))], the time step of [simulate_adr];
    the literals of the notebook ([0.25], [U = 1.0], [D = 2.0],
    [dx = L / nx]) are the arguments. *)
Definition adr_time_step (safety U D dx : R) : PyError + R :=
  match float_div dx U with
  | inl e => inl e
  | inr advective =>
      match float_div (dx ^ 2) (2 * D) with
      | inl e => inl e
      | inr diffusive => inr (safety * Rmin advective diffusive)%R
      end
  end.


(** [safety * dx**2 / D], the time step of [simulate_diffusion]. *)
Definition diffusion_time_step (safety D dx : R) : PyError + R :=
  float_div (safety * dx ^ 2) D.


(** The expressions of [diffusion_multiple_cases]; its literals
    ([sigma_0 = 5.0], [mu = 50.0], [time = 10], the list of diffusion
    coefficients) are the arguments. *)
Definition C_0 (sigma_0 mu x : R) : R :=
  exp (- 0.5 * ((x - mu) / sigma_0) ^ 2).

Definition sigma_t (sigma_0 diffusion time : R) : R :=
  sqrt (sigma_0 ^ 2 + 2 * diffusion * time).

Definition amplitude (sigma_0 diffusion time : R) : R :=
  (sigma_0 / sigma_t sigma_0 diffusion time)%R.

Definition C_t (sigma_0 mu diffusion time x : R) : R :=
  (amplitude sigma_0 diffusion time
   * exp (- 0.5 * ((x - mu) / sigma_t sigma_0 diffusion time) ^ 2))%R.

(** ** The drivers

    The numerical part of [simulate_advection], [simulate_diffusion],
    [simulate_reaction] and [simulate_adr]: the grid, the initial pulse,
    and the time loop with its snapshots.  Plotting and animation are left
    out.  The literals of the notebook are arguments. *)

(** [np.linspace(start, stop, num)] *)
Definition linspace (start stop : R) (num : nat) : list R :=
  map (fun i => start + INR i * ((stop - start) / (INR num - 1)))%R
      (seq 0 num).

(** [np.exp(-0.5 * ((x - mu) / sigma) ** 2)] on the array [x]. *)
Definition gaussian_pulse (x : list R) (mu sigma : R) : list R :=
  map (C_0 sigma mu) x.

(** [0.5 * dx / U], the time step of [simulate_advection]. *)
Definition advection_time_step (safety U dx : R) : PyError + R :=
  float_div (safety * dx) U.


(** [C.copy()] *)
Definition copy (p : loc) : M loc :=
  let* l := load p in alloc l.

(** [a % b] on Python integers. *)
Definition int_mod (a b : Z) : M Z :=
  fun h => (if decide (b = 0%Z) then inl ZeroDivisionError
            else inr (a mod b)%Z, h).

(** The loop
    [for t in ts: C = step(C); if t % every == 0 or t == nt: results.append(C.copy()); times.append(t * dt)]. *)
Fixpoint simulate_loop (step : loc -> M loc) (every nt : Z) (dt : R)
    (ts : list Z) (C : loc) (results : list loc) (times : list R)
    : M (list loc * list R) :=
  match ts with
  | [] => ret (results, times)
  | t :: ts' =>
      let* C' := step C in
      let* r := int_mod t every in
      if decide (r = 0%Z \/ t = nt) then
        let* snapshot := copy C' in
        simulate_loop step every nt dt ts' C'
                      (results ++ [snapshot]) (times ++ [(IZR t * dt)%R])
      else simulate_loop step every nt dt ts' C' results times
  end.

(** [results = [C_initial.copy()]; times = [0]; C = C_initial.copy()]
    followed by the loop over [range(1, nt+1)]; the value is the pair
    [(results, times)] the plots are drawn from. *)
Definition simulate (step : loc -> M loc) (every nt : Z) (dt : R)
    (C_initial : loc) : M (list loc * list R) :=
  let* first := copy C_initial in
  let* C := copy C_initial in
  simulate_loop step every nt dt (range 1 (nt + 1)) C [first] [0%R].

Definition simulate_advection_loop (C_initial : loc) (U dx dt : R) (nt : Z) :=
  simulate (fun C => advection_step C U dx dt) 10 nt dt C_initial.

Definition simulate_diffusion_loop (C_initial : loc) (D dx dt : R) (nt : Z) :=
  simulate (fun C => diffusion_step C D dx dt) 40 nt dt C_initial.

Definition simulate_reaction_loop (C_initial : loc) (k dt : R) (nt : Z) :=
  simulate (fun C => reaction_step C k dt) 20 nt dt C_initial.

Definition simulate_adr_loop (C_initial : loc) (U D k dx dt : R) (nt : Z) :=
  simulate (fun C => adr_step C U D k dx dt) 100 nt dt C_initial.

(** ** The other analytical solutions *)

(** [advection_multiple_cases] and [advection_interactive]: the pulse
    centred at [mu_t = mu_0 + velocity * time]. *)
Module AdvectionCases.
Definition mu_t (mu_0 velocity time : R) : R := (mu_0 + velocity * time)%R.

Definition C_t (sigma mu_0 velocity time x : R) : R :=
  exp (- 0.5 * ((x - mu_t mu_0 velocity time) / sigma) ^ 2).
End AdvectionCases.

(** [reaction_multiple_cases] and [reaction_interactive]: the decayed
    value [C_0 * np.exp(-k * time)], the half-life [np.log(2) / k] and the
    remaining fraction in percent. *)
Module ReactionCases.
Definition C_t (c_0 k time : R) : R := (c_0 * exp (- k * time))%R.

Definition half_life (k : R) : R := (ln 2 / k)%R.

Definition fraction (k time : R) : R := (exp (- k * time) * 100)%R.
End ReactionCases.

(** [adr_interactive]: the moving, widening and decaying Gaussian, and the
    two dimensionless numbers computed after it. *)
Module AdrInteractive.
Definition mu_t (mu_0 velocity time : R) : R := (mu_0 + velocity * time)%R.

Definition amplitude (sigma_0 diffusion reaction time : R) : R :=
  (sigma_0 / sigma_t sigma_0 diffusion time * exp (- reaction * time))%R.

Definition C_t (sigma_0 mu_0 velocity diffusion reaction time x : R) : R :=
  (amplitude sigma_0 diffusion reaction time
   * exp (- 0.5 * ((x - mu_t mu_0 velocity time)
                   / sigma_t sigma_0 diffusion time) ^ 2))%R.

(** [Pe = velocity * L / diffusion] then [Da = reaction * L / velocity]. *)
Definition dimensionless (L velocity diffusion reaction : R)
    : PyError + (R * R) :=
  match float_div (velocity * L) diffusion with
  | inl e => inl e
  | inr Pe =>
      match float_div (reaction * L) velocity with
      | inl e => inl e
      | inr Da => inr (Pe, Da)
      end
  end.
End AdrInteractive.

(** ** The stability policy, in the words of the specification *)

(** [chooseTimeStep] as the specification words it, to be compared with
    the time steps the drivers compute: the advective bound [dx/|U|]
    (infinite if U = 0), the diffusive bound [dx^2/(2D)] (infinite if
    D = 0), their minimum times [safetyFactor], and the failure
    [UnderconstrainedTimeStep] when both bounds are infinite.  [None] is
    the infinite bound. *)
Module StabilityPolicy.




End StabilityPolicy.

(** ** What is observed of a call *)

(** The call [m] on heap [h] returns a location that holds the array [C']. *)
Definition returns_array (m : M loc) (h : heap) (C' : list R) : Prop :=
  exists p h', m h = (inr p, h') /\ h' !! p = Some C'.

(** [np.sum(C)], and the mass [dx * sum(C)] of the specification. *)
Definition total (C : list R) : R := fold_right Rplus 0%R C.
Definition mass (dx : R) (C : list R) : R := (dx * total C)%R.

(** A call is pure for its input field [C] on heap [h]: whatever the
    outcome, every cell of [h] is left as it was, and a returned location
    is new in [h] and holds an array of the length of [C]. *)
Definition pure_call (m : M loc) (h : heap) (C : list R) : Prop :=
  (forall l, is_Some (h !! l) -> (m h).2 !! l = h !! l) /\
  (forall p, (m h).1 = inr p ->
     h !! p = None /\
     exists C', (m h).2 !! p = Some C' /\ length C' = length C).

(** ** Auxiliary definitions of the proofs

    The arrays the stepper loops build, in closed form, the finite sums
    that express [total], and the heap shapes of the purity argument. *)

(** The array left by [for i in js: C_new[i] = f(i)]. *)
Definition writes (f : nat -> R) (js : list Z) (L : list R) : list R :=
  foldl (fun L i => <[Z.to_nat i := f (Z.to_nat i)]> L) L js.

(** Right-hand side of the upwind assignment at index [i], Courant number
    [c]. *)
Definition upwind_update (C : list R) (c : R) (i : nat) : R :=
  (nth i C 0 - c * (nth i C 0 - nth (i - 1) C 0))%R.

(** The array [advection_step] returns: the loop's writes on the zero
    array, then the boundary assignment. *)
Definition advection_array (C : list R) (U dx dt : R) : list R :=
  <[0%nat := nth 0 C 0%R]>
    (writes (upwind_update C (U * (dt / dx))%R)
            (range 1 (Z.of_nat (length C)))
            (replicate (length C) 0%R)).

(** Right-hand side of the central-difference assignment at index [i],
    diffusion number [r]. *)
Definition central_update (C : list R) (r : R) (i : nat) : R :=
  (nth i C 0 + r * (nth (i + 1) C 0 - 2 * nth i C 0 + nth (i - 1) C 0))%R.

(** The array [diffusion_step] returns. *)
Definition diffusion_array (C : list R) (D dx dt : R) : list R :=
  let r := (D * (dt / dx ^ 2))%R in
  let n := length C in
  <[(n - 1)%nat := (nth (n - 1) C 0 + r * (nth (n - 2) C 0 - nth (n - 1) C 0))%R]>
    (<[0%nat := (nth 0 C 0 + r * (nth 1 C 0 - nth 0 C 0))%R]>
       (writes (central_update C r) (range 1 (Z.of_nat n - 1))
               (replicate n 0%R))).

(** Right-hand side of the combined assignment at index [i]. *)
Definition adr_update (C : list R) (U D k dx dt : R) (i : nat) : R :=
  (nth i C 0
   + - U * (dt / dx) * (nth i C 0 - nth (i - 1) C 0)
   + D * (dt / dx ^ 2) * (nth (i + 1) C 0 - 2 * nth i C 0 + nth (i - 1) C 0)
   + - k * dt * nth i C 0)%R.

(** The array [adr_step] returns. *)
Definition adr_array (C : list R) (U D k dx dt : R) : list R :=
  let n := length C in
  <[(n - 1)%nat := nth (n - 2) C 0%R]>
    (<[0%nat := nth 0 C 0%R]>
       (writes (adr_update C U D k dx dt) (range 1 (Z.of_nat n - 1))
               (replicate n 0%R))).

(** The array [reaction_step] returns. *)
Definition reaction_array (C : list R) (k dt : R) : list R :=
  map (fun c => c * exp (- k * dt))%R C.

(** [g 0 + ... + g (n-1)] *)
Fixpoint sum_below (n : nat) (g : nat -> R) : R :=
  match n with
  | O => 0%R
  | S n' => (sum_below n' g + g n')%R
  end.

(** Flux through the left face of cell [i] for the diffusion stepper: the
    difference [C[i] - C[i-1]] inside the field, nothing at the two ends. *)
Definition face_difference (C : list R) (i : nat) : R :=
  if decide (1 <= i < length C)%nat then (nth i C 0 - nth (i - 1) C 0)%R
  else 0%R.

(** The heap is [h0] with an output cell [pN] of length [n] added. *)
Definition output_only (h0 : heap) (pN : loc) (n : nat) (h : heap) : Prop :=
  (forall l, is_Some (h0 !! l) -> h !! l = h0 !! l) /\
  (exists L, h !! pN = Some L /\ length L = n).

(** [m] keeps the heap in that shape, whatever its outcome. *)
Definition preserves (h0 : heap) (pN : loc) (n : nat) {A} (m : M A) : Prop :=
  forall h, output_only h0 pN n h -> output_only h0 pN n (m h).2.

(** A computation that can only return the location [a]. *)
Definition yields (a : loc) (m : M loc) : Prop :=
  forall h x h', m h = (inr x, h') -> x = a.

(** [C3 = a*C1 + b*C2], entry by entry, on fields of one length. *)
Definition combination (a b : R) (C1 C2 C3 : list R) : Prop :=
  length C2 = length C1 /\ length C3 = length C1 /\
  forall i, (i < length C1)%nat ->
    nth i C3 0%R = (a * nth i C1 0 + b * nth i C2 0)%R.

(** The stepper maps the fields held by [p1], [p2], [p3] to fields in the
    same combination. *)
Definition superposes (step : loc -> M loc) (h : heap) (p1 p2 p3 : loc)
    (a b : R) : Prop :=
  exists A1 A2 A3,
    returns_array (step p1) h A1 /\ returns_array (step p2) h A2 /\
    returns_array (step p3) h A3 /\ combination a b A1 A2 A3.

(** The steps [t] in [1..nt] after which the drivers keep a snapshot. *)
Definition recorded (every nt : Z) : list Z :=
  filter (fun t => (t mod every = 0 \/ t = nt)%Z) (seqZ 1 nt).

(** On fields that satisfy [P], a call of [step] allocates one cell and
    fills it with [F C]; [P] is kept by [F]. *)
Definition functional_step (step : loc -> M loc) (P : list R -> Prop)
    (F : list R -> list R) : Prop :=
  (forall C, P C -> P (F C)) /\
  (forall (h : heap) p C, h !! p = Some C -> P C ->
     step p h = (inr (fresh (dom h)), <[fresh (dom h) := F C]> h)).

(** What a driver leaves behind: as many snapshots as times; the times
    are 0 and then [t*dt] for the recorded steps, so their number is
    [1 + nt/every], plus one when [every] does not divide [nt], and the last
    one is [nt*dt]; the snapshots are distinct cells, new in [h], and in the
    final heap the one kept at step [t] holds the field that [t] calls of
    [step], started at [C_initial], return (the first one, at step 0, the
    initial field itself); no cell of [h] is changed. *)
Definition snapshot_log (step : loc -> M loc) (run : M (list loc * list R))
    (h : heap) (C_initial : loc) (every nt : Z) (dt : R) : Prop :=
  exists results times (h' : heap),
    run h = (inr (results, times), h') /\
    length results = length times /\
    times = 0%R :: map (fun t => IZR t * dt)%R (recorded every nt) /\
    Z.of_nat (length times) =
      (1 + nt / every + (if decide (nt mod every = 0) then 0 else 1))%Z /\
    ((1 <= nt)%Z -> last times = Some (IZR nt * dt)%R) /\
    NoDup results /\
    Forall (fun p => h !! p = None) results /\
    Forall2 (fun p t =>
               exists A, h' !! p = Some A /\
                 returns_array (time_loop step (Z.to_nat t) C_initial) h A)
            results (0%Z :: recorded every nt) /\
    (forall l, is_Some (h !! l) -> h' !! l = h !! l).

(** ** Reasoning rules for the primitives *)

Section Primitives.
Context {A B : Type}.
Implicit Types (h : heap) (p : loc) (l : list R).

Lemma bind_inr (m : M A) (k : A -> M B) h a h' :
  m h = (inr a, h') -> bind m k h = k a h'.
Proof. intros E. unfold bind. now rewrite E. Qed.

Lemma bind_inl (m : M A) (k : A -> M B) h e h' :
  m h = (inl e, h') -> bind m k h = (inl e, h').
Proof. intros E. unfold bind. now rewrite E. Qed.

Lemma bind_assoc {X} (m : M A) (k : A -> M B) (k' : B -> M X) h :
  bind (bind m k) k' h = bind m (fun a => bind (k a) k') h.
Proof. unfold bind. destruct (m h) as [[e|a] h']; reflexivity. Qed.
End Primitives.

Lemma py_index_nonneg n i :
  (0 <= i < Z.of_nat n)%Z -> py_index n i = Some (Z.to_nat i).
Proof. intros H. unfold py_index. now rewrite decide_True. Qed.

Lemma py_index_neg n i :
  (- Z.of_nat n <= i < 0)%Z -> py_index n i = Some (Z.to_nat (Z.of_nat n + i)).
Proof.
  intros H. unfold py_index.
  rewrite decide_False by lia. now rewrite decide_True.
Qed.

Lemma py_index_out n i :
  (i < - Z.of_nat n \/ Z.of_nat n <= i)%Z -> py_index n i = None.
Proof. intros H. unfold py_index. now rewrite !decide_False by lia. Qed.

Lemma len_ok (h : heap) p l :
  h !! p = Some l -> len p h = (inr (Z.of_nat (length l)), h).
Proof. intros E. unfold len. now rewrite E. Qed.

Lemma load_ok (h : heap) p l : h !! p = Some l -> load p h = (inr l, h).
Proof. intros E. unfold load. now rewrite E. Qed.

Lemma getitem_ok (h : heap) p l i :
  h !! p = Some l -> (0 <= i < Z.of_nat (length l))%Z ->
  getitem p i h = (inr (nth (Z.to_nat i) l 0%R), h).
Proof.
  intros E Hi. unfold getitem. rewrite E, py_index_nonneg by done.
  destruct (lookup_lt_is_Some_2 l (Z.to_nat i)) as [v Hv]; [lia|].
  rewrite Hv. now rewrite (nth_lookup_Some _ _ _ _ Hv).
Qed.

Lemma getitem_out (h : heap) p l i :
  h !! p = Some l -> (i < - Z.of_nat (length l) \/ Z.of_nat (length l) <= i)%Z ->
  getitem p i h = (inl IndexError, h).
Proof. intros E Hi. unfold getitem. now rewrite E, py_index_out. Qed.

Lemma setitem_ok (h : heap) p l i v :
  h !! p = Some l -> (0 <= i < Z.of_nat (length l))%Z ->
  setitem p i v h = (inr tt, <[p := <[Z.to_nat i := v]> l]> h).
Proof. intros E Hi. unfold setitem. now rewrite E, py_index_nonneg. Qed.

Lemma fdiv_ok (h : heap) a b :
  b <> 0%R -> fdiv a b h = (inr (a / b)%R, h).
Proof. intros Hb. unfold fdiv, float_div. now rewrite decide_False. Qed.

Lemma fdiv_zero (h : heap) a : fdiv a 0 h = (inl ZeroDivisionError, h).
Proof. unfold fdiv, float_div. now rewrite decide_True. Qed.

Lemma fresh_loc_not_in (h : heap) : h !! fresh (dom h) = None.
Proof. apply not_elem_of_dom, is_fresh. Qed.

Lemma zeros_like_ok (h : heap) p l :
  h !! p = Some l ->
  zeros_like p h =
    (inr (fresh (dom h)), <[fresh (dom h) := replicate (length l) 0%R]> h).
Proof. intros E. unfold zeros_like. now rewrite E. Qed.

(** ** A loop that writes one entry per index *)

Lemma length_writes f js L : length (writes f js L) = length L.
Proof.
  revert L. induction js as [|i js IH]; intros L; [done|].
  unfold writes in *. simpl. now rewrite IH, length_insert.
Qed.

Lemma for_each_writes (pN : loc) (h0 : heap) n f body js :
  (forall i L, i ∈ js -> length L = n ->
     body i (<[pN := L]> h0) =
       (inr tt, <[pN := <[Z.to_nat i := f (Z.to_nat i)]> L]> h0)) ->
  forall L, length L = n ->
    for_each js body (<[pN := L]> h0) = (inr tt, <[pN := writes f js L]> h0).
Proof.
  induction js as [|i js IH]; intros Hbody L HL; [done|].
  simpl. erewrite bind_inr; last (apply Hbody; [left | done]).
  rewrite IH; [done | | by rewrite length_insert].
  intros j L' Hj HL'. apply Hbody; [by right | done].
Qed.

Lemma for_each_raise_first (h : heap) body i js e h' :
  body i h = (inl e, h') -> for_each (i :: js) body h = (inl e, h').
Proof. intros E. simpl. now apply bind_inl. Qed.

Lemma writes_range_nth f lo k L j :
  (0 <= lo)%Z ->
  nth j (writes f (seqZ lo (Z.of_nat k)) L) 0%R =
    if decide (Z.to_nat lo <= j < Z.to_nat lo + k /\ j < length L)
    then f j else nth j L 0%R.
Proof.
  intros Hlo. induction k as [|k IH].
  - simpl. now rewrite decide_False by lia.
  - rewrite seqZ_S. unfold writes in *. rewrite foldl_snoc.
    set (W := foldl _ L _) in *.
    assert (length W = length L) as HW by apply (length_writes f _ L).
    clearbody W.
    replace (Z.to_nat (lo + Z.of_nat k)) with (Z.to_nat lo + k) by lia.
    rewrite !nth_lookup in *.
    destruct (decide (j = Z.to_nat lo + k)) as [->|Hne].
    + destruct (decide (Z.to_nat lo + k < length L)) as [Hlt|Hge].
      * rewrite list_lookup_insert_eq by lia. now rewrite decide_True by lia.
      * rewrite list_insert_ge by lia. rewrite IH.
        now rewrite !decide_False by lia.
    + rewrite list_lookup_insert_ne by lia. rewrite IH.
      destruct (decide (Z.to_nat lo <= j < Z.to_nat lo + k /\ j < length L)).
      * now rewrite decide_True by lia.
      * now rewrite decide_False by lia.
Qed.

(** ** One call of a stepper: the input cell and the fresh output cell *)

Section Call.
Variables (h : heap) (pC : loc) (C : list R).
Hypothesis HC : h !! pC = Some C.

Let pN : loc := fresh (dom h).

Lemma fresh_neq_input : pN <> pC.
Proof.
  intros E. pose proof (fresh_loc_not_in h) as Hn.
  fold pN in Hn. rewrite E, HC in Hn. discriminate.
Qed.

Lemma get_input L i :
  (0 <= i < Z.of_nat (length C))%Z ->
  getitem pC i (<[pN := L]> h) =
    (inr (nth (Z.to_nat i) C 0%R), <[pN := L]> h).
Proof.
  intros Hi. apply getitem_ok; [|done].
  rewrite lookup_insert_ne; [done | apply fresh_neq_input].
Qed.

Lemma get_input_out L i :
  (i < - Z.of_nat (length C) \/ Z.of_nat (length C) <= i)%Z ->
  getitem pC i (<[pN := L]> h) = (inl IndexError, <[pN := L]> h).
Proof.
  intros Hi. eapply getitem_out; [|done].
  rewrite lookup_insert_ne; [done | apply fresh_neq_input].
Qed.

Lemma set_output L i v :
  (0 <= i < Z.of_nat (length L))%Z ->
  setitem pN i v (<[pN := L]> h) =
    (inr tt, <[pN := <[Z.to_nat i := v]> L]> h).
Proof.
  intros Hi. erewrite setitem_ok; [|apply lookup_insert_eq|done].
  now rewrite insert_insert_eq.
Qed.

Lemma ret_output {A} (a : A) L :
  ret a (<[pN := L]> h) = (inr a, <[pN := L]> h).
Proof. reflexivity. Qed.
End Call.

(** Symbolic execution of a straight-line body on a heap of the shape
    [<[pN := L]> h]. *)
Ltac py_bounds :=
  rewrite ?length_insert, ?length_writes, ?length_replicate; lia.
Ltac py_step :=
  first
    [ rewrite bind_assoc
    | erewrite bind_inr; last (eapply get_input; [eassumption | py_bounds])
    | erewrite bind_inr; last (eapply fdiv_ok; eassumption)
    | erewrite bind_inr; last (eapply set_output; py_bounds)
    | erewrite bind_inr; last (eapply ret_output)
    | erewrite set_output by py_bounds ].
Ltac py_run := repeat py_step.

(** ** The steppers compute the closed-form arrays *)

Lemma advection_step_ok (h : heap) pC C U dx dt :
  h !! pC = Some C -> (1 <= length C)%nat ->
  ((2 <= length C)%nat -> dx <> 0%R) ->
  advection_step pC U dx dt h =
    (inr (fresh (dom h)), <[fresh (dom h) := advection_array C U dx dt]> h).
Proof.
  intros HC Hn Hdx. unfold advection_step.
  erewrite bind_inr by (by apply len_ok).
  erewrite bind_inr by (by apply zeros_like_ok).
  erewrite bind_inr.
  2:{ apply for_each_writes
        with (n := length C) (f := upwind_update C (U * (dt / dx))%R);
        [|apply length_replicate].
      intros i L Hi HL. unfold range in Hi. apply elem_of_seqZ in Hi.
      assert (dx <> 0%R) as Hdx' by (apply Hdx; lia).
      py_run. unfold upwind_update.
      now replace (Z.to_nat (i - 1)) with (Z.to_nat i - 1)%nat by lia. }
  py_run. reflexivity.
Qed.

Lemma advection_step_empty (h : heap) pC U dx dt :
  h !! pC = Some [] ->
  advection_step pC U dx dt h =
    (inl IndexError, <[fresh (dom h) := []]> h).
Proof.
  intros HC. unfold advection_step.
  erewrite bind_inr by (by apply len_ok).
  erewrite bind_inr by (by apply zeros_like_ok).
  unfold range. rewrite seqZ_nil by (simpl; lia). cbn [for_each].
  erewrite bind_inr by reflexivity.
  erewrite bind_inl; [reflexivity|].
  eapply get_input_out; [eassumption | simpl; lia].
Qed.

Lemma advection_step_div0 (h : heap) pC C U dt :
  h !! pC = Some C -> (2 <= length C)%nat ->
  advection_step pC U 0 dt h =
    (inl ZeroDivisionError, <[fresh (dom h) := replicate (length C) 0%R]> h).
Proof.
  intros HC Hn. unfold advection_step.
  erewrite bind_inr by (by apply len_ok).
  erewrite bind_inr by (by apply zeros_like_ok).
  unfold range. rewrite seqZ_cons by lia.
  erewrite bind_inl; [reflexivity|].
  apply for_each_raise_first. py_step.
  erewrite bind_inl; [reflexivity | apply fdiv_zero].
Qed.

Lemma pow2_nonzero (x : R) : x <> 0%R -> (x ^ 2)%R <> 0%R.
Proof. intros Hx. apply pow_nonzero, Hx. Qed.

Lemma diffusion_step_ok (h : heap) pC C D dx dt :
  h !! pC = Some C -> (2 <= length C)%nat -> dx <> 0%R ->
  diffusion_step pC D dx dt h =
    (inr (fresh (dom h)), <[fresh (dom h) := diffusion_array C D dx dt]> h).
Proof.
  intros HC Hn Hdx. pose proof (pow2_nonzero dx Hdx) as Hdx2.
  unfold diffusion_step.
  erewrite bind_inr by (by apply len_ok).
  erewrite bind_inr by (by apply zeros_like_ok).
  erewrite bind_inr.
  2:{ apply for_each_writes
        with (n := length C) (f := central_update C (D * (dt / dx ^ 2))%R);
        [|apply length_replicate].
      intros i L Hi HL. unfold range in Hi. apply elem_of_seqZ in Hi.
      py_run. unfold central_update.
      replace (Z.to_nat (i - 1)) with (Z.to_nat i - 1)%nat by lia.
      now replace (Z.to_nat (i + 1)) with (Z.to_nat i + 1)%nat by lia. }
  py_run. unfold diffusion_array. cbv zeta.
  replace (Z.to_nat (Z.of_nat (length C) - 1)) with (length C - 1)%nat by lia.
  now replace (Z.to_nat (Z.of_nat (length C) - 2)) with (length C - 2)%nat by lia.
Qed.

Lemma adr_step_ok (h : heap) pC C U D k dx dt :
  h !! pC = Some C -> (2 <= length C)%nat -> dx <> 0%R ->
  adr_step pC U D k dx dt h =
    (inr (fresh (dom h)), <[fresh (dom h) := adr_array C U D k dx dt]> h).
Proof.
  intros HC Hn Hdx. pose proof (pow2_nonzero dx Hdx) as Hdx2.
  unfold adr_step.
  erewrite bind_inr by (by apply len_ok).
  erewrite bind_inr by (by apply zeros_like_ok).
  erewrite bind_inr.
  2:{ apply for_each_writes
        with (n := length C) (f := adr_update C U D k dx dt);
        [|apply length_replicate].
      intros i L Hi HL. unfold range in Hi. apply elem_of_seqZ in Hi.
      py_run. unfold adr_update.
      replace (Z.to_nat (i - 1)) with (Z.to_nat i - 1)%nat by lia.
      now replace (Z.to_nat (i + 1)) with (Z.to_nat i + 1)%nat by lia. }
  py_run. unfold adr_array. cbv zeta.
  replace (Z.to_nat (Z.of_nat (length C) - 1)) with (length C - 1)%nat by lia.
  now replace (Z.to_nat (Z.of_nat (length C) - 2)) with (length C - 2)%nat by lia.
Qed.

Lemma reaction_step_ok (h : heap) pC C k dt :
  h !! pC = Some C ->
  reaction_step pC k dt h =
    (inr (fresh (dom h)), <[fresh (dom h) := reaction_array C k dt]> h).
Proof.
  intros HC. unfold reaction_step.
  erewrite bind_inr by (by apply load_ok). reflexivity.
Qed.

(** ** Entries of the arrays *)

Lemma nth_insert_eq (L : list R) i v :
  (i < length L)%nat -> nth i (<[i := v]> L) 0%R = v.
Proof. intros Hi. apply nth_lookup_Some, list_lookup_insert_eq, Hi. Qed.

Lemma nth_insert_ne (L : list R) i j v :
  i <> j -> nth j (<[i := v]> L) 0%R = nth j L 0%R.
Proof. intros Hij. now rewrite !nth_lookup, list_lookup_insert_ne. Qed.

Lemma writes_interior_nth f hi L j :
  (1 <= j)%nat -> (Z.of_nat j < hi)%Z -> (j < length L)%nat ->
  nth j (writes f (range 1 hi) L) 0%R = f j.
Proof.
  intros H1 H2 H3. unfold range.
  replace (hi - 1)%Z with (Z.of_nat (Z.to_nat (hi - 1))) by lia.
  rewrite writes_range_nth by lia. now rewrite decide_True by lia.
Qed.

Lemma length_advection_array C U dx dt :
  length (advection_array C U dx dt) = length C.
Proof.
  unfold advection_array.
  now rewrite length_insert, length_writes, length_replicate.
Qed.

Lemma advection_array_0 C U dx dt :
  (1 <= length C)%nat -> nth 0 (advection_array C U dx dt) 0%R = nth 0 C 0%R.
Proof.
  intros Hn. unfold advection_array. apply nth_insert_eq.
  rewrite length_writes, length_replicate. lia.
Qed.

Lemma advection_array_S C U dx dt i :
  (1 <= i < length C)%nat ->
  nth i (advection_array C U dx dt) 0%R = upwind_update C (U * (dt / dx)) i.
Proof.
  intros Hi. unfold advection_array. rewrite nth_insert_ne by lia.
  apply writes_interior_nth; rewrite ?length_replicate; lia.
Qed.

Lemma length_diffusion_array C D dx dt :
  length (diffusion_array C D dx dt) = length C.
Proof.
  unfold diffusion_array. cbv zeta.
  now rewrite !length_insert, length_writes, length_replicate.
Qed.

Lemma diffusion_array_first C D dx dt :
  (2 <= length C)%nat ->
  nth 0 (diffusion_array C D dx dt) 0%R =
    (nth 0 C 0 + D * (dt / dx ^ 2) * (nth 1 C 0 - nth 0 C 0))%R.
Proof.
  intros Hn. unfold diffusion_array. cbv zeta.
  rewrite nth_insert_ne by lia. apply nth_insert_eq.
  rewrite length_writes, length_replicate. lia.
Qed.

Lemma diffusion_array_last C D dx dt :
  (2 <= length C)%nat ->
  nth (length C - 1) (diffusion_array C D dx dt) 0%R =
    (nth (length C - 1) C 0
     + D * (dt / dx ^ 2) * (nth (length C - 2) C 0 - nth (length C - 1) C 0))%R.
Proof.
  intros Hn. unfold diffusion_array. cbv zeta. apply nth_insert_eq.
  rewrite length_insert, length_writes, length_replicate. lia.
Qed.

Lemma diffusion_array_interior C D dx dt i :
  (1 <= i)%nat -> (i + 1 < length C)%nat ->
  nth i (diffusion_array C D dx dt) 0%R =
    central_update C (D * (dt / dx ^ 2)) i.
Proof.
  intros H1 H2. unfold diffusion_array. cbv zeta.
  rewrite !nth_insert_ne by lia.
  apply writes_interior_nth; rewrite ?length_replicate; lia.
Qed.

Lemma length_adr_array C U D k dx dt :
  length (adr_array C U D k dx dt) = length C.
Proof.
  unfold adr_array. cbv zeta.
  now rewrite !length_insert, length_writes, length_replicate.
Qed.

Lemma adr_array_first C U D k dx dt :
  (2 <= length C)%nat -> nth 0 (adr_array C U D k dx dt) 0%R = nth 0 C 0%R.
Proof.
  intros Hn. unfold adr_array. cbv zeta.
  rewrite nth_insert_ne by lia. apply nth_insert_eq.
  rewrite length_writes, length_replicate. lia.
Qed.

Lemma adr_array_last C U D k dx dt :
  (2 <= length C)%nat ->
  nth (length C - 1) (adr_array C U D k dx dt) 0%R = nth (length C - 2) C 0%R.
Proof.
  intros Hn. unfold adr_array. cbv zeta. apply nth_insert_eq.
  rewrite length_insert, length_writes, length_replicate. lia.
Qed.

Lemma adr_array_interior C U D k dx dt i :
  (1 <= i)%nat -> (i + 1 < length C)%nat ->
  nth i (adr_array C U D k dx dt) 0%R = adr_update C U D k dx dt i.
Proof.
  intros H1 H2. unfold adr_array. cbv zeta.
  rewrite !nth_insert_ne by lia.
  apply writes_interior_nth; rewrite ?length_replicate; lia.
Qed.

Lemma length_reaction_array C k dt : length (reaction_array C k dt) = length C.
Proof. apply length_map. Qed.

Lemma reaction_array_nth C k dt i :
  nth i (reaction_array C k dt) 0%R = (nth i C 0 * exp (- k * dt))%R.
Proof.
  unfold reaction_array.
  rewrite <- (Rmult_0_l (exp (- k * dt))) at 1.
  apply (map_nth (fun c => c * exp (- k * dt))%R).
Qed.

(** ** Returned arrays *)

Lemma returns_array_det m h C1 C2 :
  returns_array m h C1 -> returns_array m h C2 -> C1 = C2.
Proof.
  intros (p1 & h1 & E1 & L1) (p2 & h2 & E2 & L2).
  rewrite E1 in E2. simplify_eq. congruence.
Qed.

Lemma returns_array_bind {A} (m : M A) (k : A -> M loc) h a h1 C' :
  m h = (inr a, h1) -> returns_array (k a) h1 C' ->
  returns_array (bind m k) h C'.
Proof.
  intros E (p & h2 & E2 & L2). exists p, h2.
  split; [now rewrite (bind_inr _ _ _ _ _ E) | done].
Qed.

Lemma returns_fresh (m : M loc) (h : heap) L :
  m h = (inr (fresh (dom h)), <[fresh (dom h) := L]> h) -> returns_array m h L.
Proof. intros E. exists (fresh (dom h)), (<[fresh (dom h) := L]> h).
  split; [done | apply lookup_insert_eq]. Qed.

Lemma advection_step_returns (h : heap) pC C U dx dt :
  h !! pC = Some C -> (1 <= length C)%nat ->
  ((2 <= length C)%nat -> dx <> 0%R) ->
  returns_array (advection_step pC U dx dt) h (advection_array C U dx dt).
Proof. intros. now apply returns_fresh, advection_step_ok. Qed.

Lemma not_returns_raise (m : M loc) (h h' : heap) e C' :
  m h = (inl e, h') -> ~ returns_array m h C'.
Proof. intros E (p & h2 & E2 & _). congruence. Qed.

Lemma diffusion_step_returns (h : heap) pC C D dx dt :
  h !! pC = Some C -> (2 <= length C)%nat -> dx <> 0%R ->
  returns_array (diffusion_step pC D dx dt) h (diffusion_array C D dx dt).
Proof. intros. now apply returns_fresh, diffusion_step_ok. Qed.

Lemma adr_step_returns (h : heap) pC C U D k dx dt :
  h !! pC = Some C -> (2 <= length C)%nat -> dx <> 0%R ->
  returns_array (adr_step pC U D k dx dt) h (adr_array C U D k dx dt).
Proof. intros. now apply returns_fresh, adr_step_ok. Qed.

Lemma reaction_step_returns (h : heap) pC C k dt :
  h !! pC = Some C ->
  returns_array (reaction_step pC k dt) h (reaction_array C k dt).
Proof. intros. now apply returns_fresh, reaction_step_ok. Qed.

(** ** Concrete runs and edge cases *)

Example advection_array_pulse :
  advection_array [0; 0; 1]%R 1 1 (1 / 2) = [0; 0; 1 / 2]%R.
Proof.
  unfold advection_array, range, writes, upwind_update. simpl.
  repeat (apply (f_equal2 cons); [lra|]). reflexivity.
Qed.

Example diffusion_array_pulse :
  diffusion_array [0; 1; 0]%R 2 1 (1 / 8) = [1 / 4; 1 / 2; 1 / 4]%R.
Proof.
  unfold diffusion_array, range, writes, central_update. simpl.
  repeat (apply (f_equal2 cons); [lra|]). reflexivity.
Qed.

Example adr_array_ramp : adr_array [1; 2; 4]%R 1 1 1 1 1 = [1; 0; 2]%R.
Proof.
  unfold adr_array, range, writes, adr_update. simpl.
  repeat (apply (f_equal2 cons); [lra|]). reflexivity.
Qed.

Example adr_array_decay :
  adr_array [1; 1; 1]%R 0 0 1 1 (1 / 2) = [1; 1 / 2; 1]%R.
Proof.
  unfold adr_array, range, writes, adr_update. simpl.
  repeat (apply (f_equal2 cons); [lra|]). reflexivity.
Qed.

Lemma getitem_wrap (h : heap) p l i :
  h !! p = Some l -> (- Z.of_nat (length l) <= i < 0)%Z ->
  getitem p i h = (inr (nth (Z.to_nat (Z.of_nat (length l) + i)) l 0%R), h).
Proof.
  intros E Hi. unfold getitem. rewrite E, py_index_neg by done.
  destruct (lookup_lt_is_Some_2 l (Z.to_nat (Z.of_nat (length l) + i)))
    as [v Hv]; [lia|].
  rewrite Hv. now rewrite (nth_lookup_Some _ _ _ _ Hv).
Qed.

(** On a one-entry field [adr_step] reads [C[n-2] = C[-1]], the entry
    itself, and returns a copy; no division is evaluated. *)
Lemma adr_step_singleton (h : heap) pC c U D k dx dt :
  h !! pC = Some [c] ->
  adr_step pC U D k dx dt h =
    (inr (fresh (dom h)), <[fresh (dom h) := [c]]> h).
Proof.
  intros HC. unfold adr_step.
  erewrite bind_inr by (by apply len_ok).
  erewrite bind_inr by (by apply zeros_like_ok).
  unfold range. rewrite seqZ_nil by (simpl; lia). cbn [for_each].
  erewrite bind_inr by reflexivity.
  rewrite bind_assoc.
  erewrite bind_inr by (eapply get_input; [eassumption | simpl; lia]).
  erewrite bind_inr by (eapply set_output; simpl; lia).
  rewrite bind_assoc.
  erewrite bind_inr.
  2:{ eapply getitem_wrap.
      - rewrite lookup_insert_ne; [eassumption|].
        now apply (fresh_neq_input h pC [c]).
      - simpl. lia. }
  erewrite bind_inr by (eapply set_output; simpl; lia).
  reflexivity.
Qed.

(** On a one-entry field [diffusion_step] reads [C[1]], which is out of
    range. *)
Lemma diffusion_step_singleton (h : heap) pC c D dx dt :
  h !! pC = Some [c] -> dx <> 0%R ->
  diffusion_step pC D dx dt h =
    (inl IndexError, <[fresh (dom h) := [0%R]]> h).
Proof.
  intros HC Hdx. pose proof (pow2_nonzero dx Hdx) as Hdx2.
  unfold diffusion_step.
  erewrite bind_inr by (by apply len_ok).
  erewrite bind_inr by (by apply zeros_like_ok).
  unfold range. rewrite seqZ_nil by (simpl; lia). cbn [for_each].
  erewrite bind_inr by reflexivity.
  erewrite bind_inl; [reflexivity|].
  erewrite bind_inr by (eapply get_input; [eassumption | simpl; lia]).
  erewrite bind_inr by (eapply fdiv_ok; eassumption).
  erewrite bind_inl; [reflexivity|].
  eapply get_input_out; [eassumption | simpl; lia].
Qed.

(** ** The combined stepper (C1) *)

(** C1. On a field of length N >= 3 with dx > 0, [adr_step] returns a field
    of the same length whose interior entries are the sum of the old value
    and the upwind advection, central diffusion and linear reaction
    increments, whose first entry is the old first entry and whose last
    entry is the old second-to-last entry. *)
Theorem adr_step_spec (h : heap) (pC : loc) (C : list R) (U D k dx dt : R) :
  h !! pC = Some C -> (3 <= length C)%nat -> (0 < dx)%R ->
  exists C',
    returns_array (adr_step pC U D k dx dt) h C' /\
    length C' = length C /\
    nth 0 C' 0%R = nth 0 C 0%R /\
    nth (length C - 1) C' 0%R = nth (length C - 2) C 0%R /\
    forall i, (1 <= i <= length C - 2)%nat ->
      nth i C' 0%R =
        (nth i C 0
         + - U * (dt / dx) * (nth i C 0 - nth (i - 1) C 0)
         + D * (dt / dx ^ 2) * (nth (i + 1) C 0 - 2 * nth i C 0 + nth (i - 1) C 0)
         + - k * dt * nth i C 0)%R.
Proof.
  intros HC Hn Hdx. exists (adr_array C U D k dx dt).
  split; [apply adr_step_returns; [done | lia | lra]|].
  split; [apply length_adr_array|].
  split; [apply adr_array_first; lia|].
  split; [apply adr_array_last; lia|].
  intros i Hi. rewrite adr_array_interior by lia. reflexivity.
Qed.

Lemma adr_step_spec_witness :
  exists C',
    returns_array (adr_step 1%positive 1 1 1 1 1)
                  {[1%positive := [1; 2; 4]%R]} C' /\
    length C' = 3%nat /\
    nth 0 C' 0%R = 1%R /\
    nth 2 C' 0%R = 2%R /\
    forall i, (1 <= i <= 1)%nat ->
      nth i C' 0%R =
        (nth i [1; 2; 4] 0
         + - 1 * (1 / 1) * (nth i [1; 2; 4] 0 - nth (i - 1) [1; 2; 4] 0)
         + 1 * (1 / 1 ^ 2)
           * (nth (i + 1) [1; 2; 4] 0 - 2 * nth i [1; 2; 4] 0
              + nth (i - 1) [1; 2; 4] 0)
         + - 1 * 1 * nth i [1; 2; 4] 0)%R.
Proof.
  apply (adr_step_spec {[1%positive := [1; 2; 4]%R]} 1%positive
                       [1; 2; 4]%R 1 1 1 1 1).
  - reflexivity.
  - simpl. lia.
  - lra.
Defined.

(** ** The advection stepper (C7, C10) *)

(** C7. On a non-empty field with dx > 0, [advection_step] returns a field
    of the same length whose entry at every i >= 1, the last one included,
    is the upwind update of the old field, and whose first entry is the old
    first entry. *)
Theorem advection_step_spec (h : heap) (pC : loc) (C : list R) (U dx dt : R) :
  h !! pC = Some C -> (1 <= length C)%nat -> (0 < dx)%R ->
  exists C',
    returns_array (advection_step pC U dx dt) h C' /\
    length C' = length C /\
    nth 0 C' 0%R = nth 0 C 0%R /\
    forall i, (1 <= i < length C)%nat ->
      nth i C' 0%R =
        (nth i C 0 - U * (dt / dx) * (nth i C 0 - nth (i - 1) C 0))%R.
Proof.
  intros HC Hn Hdx. exists (advection_array C U dx dt).
  split; [apply advection_step_returns; [done | lia | intros _; lra]|].
  split; [apply length_advection_array|].
  split; [apply advection_array_0; lia|].
  intros i Hi. rewrite advection_array_S by lia. reflexivity.
Qed.

Lemma advection_step_spec_witness :
  exists C',
    returns_array (advection_step 1%positive 1 1 (1 / 2))
                  {[1%positive := [0; 0; 1]%R]} C' /\
    length C' = 3%nat /\
    nth 0 C' 0%R = 0%R /\
    forall i, (1 <= i < 3)%nat ->
      nth i C' 0%R =
        (nth i [0; 0; 1] 0
         - 1 * (1 / 2 / 1) * (nth i [0; 0; 1] 0 - nth (i - 1) [0; 0; 1] 0))%R.
Proof.
  apply (advection_step_spec {[1%positive := [0; 0; 1]%R]} 1%positive
                             [0; 0; 1]%R 1 1 (1 / 2)).
  - reflexivity.
  - simpl. lia.
  - lra.
Defined.

Lemma upwind_update_convex C c i :
  upwind_update C c i = ((1 - c) * nth i C 0 + c * nth (i - 1) C 0)%R.
Proof. unfold upwind_update. ring. Qed.

Lemma nonneg_nth (C : list R) i : Forall (Rle 0) C -> (0 <= nth i C 0)%R.
Proof.
  intros HC. destruct (Nat.lt_ge_cases i (length C)) as [Hlt|Hge].
  - now apply Forall_nth.
  - rewrite nth_overflow by lia. lra.
Qed.

Lemma advection_step_outcome (h : heap) pC C U dx dt C' :
  h !! pC = Some C ->
  returns_array (advection_step pC U dx dt) h C' ->
  (1 <= length C)%nat /\ ((2 <= length C)%nat -> dx <> 0%R) /\
  C' = advection_array C U dx dt.
Proof.
  intros HC Hret.
  assert (1 <= length C)%nat as Hn.
  { destruct C as [|c0 C0]; [|simpl; lia].
    exfalso. revert Hret. eapply not_returns_raise.
    now apply advection_step_empty. }
  assert ((2 <= length C)%nat -> dx <> 0%R) as Hdx.
  { intros H2 ->. revert Hret. eapply not_returns_raise.
    now apply (advection_step_div0 h pC C). }
  repeat split; [done..|].
  eapply returns_array_det; [exact Hret|].
  now apply advection_step_returns.
Qed.

(** C10. With a Courant number between 0 and 1, [advection_step] maps a
    field without negative entries to a field without negative entries:
    every entry at i >= 1 is the convex combination of the old entries at
    i and i-1, and the first entry is copied.  The call returns whenever
    the field is non-empty and dx is not zero. *)
Theorem advection_step_nonneg (h : heap) (pC : loc) (C : list R) (U dx dt : R) :
  h !! pC = Some C -> Forall (Rle 0) C ->
  (0 <= U * dt / dx <= 1)%R ->
  (forall C', returns_array (advection_step pC U dx dt) h C' ->
     Forall (Rle 0) C' /\
     nth 0 C' 0%R = nth 0 C 0%R /\
     forall i, (1 <= i < length C)%nat ->
       nth i C' 0%R =
         ((1 - U * dt / dx) * nth i C 0 + U * dt / dx * nth (i - 1) C 0)%R) /\
  ((1 <= length C)%nat -> dx <> 0%R ->
   exists C', returns_array (advection_step pC U dx dt) h C').
Proof.
  intros HC Hpos Hc. split.
  - intros C' Hret.
    destruct (advection_step_outcome _ _ _ _ _ _ _ HC Hret) as (Hn & Hdx & ->).
    assert (forall i, (1 <= i < length C)%nat ->
              nth i (advection_array C U dx dt) 0%R =
                ((1 - U * dt / dx) * nth i C 0
                 + U * dt / dx * nth (i - 1) C 0)%R) as Hint.
    { intros i Hi. rewrite advection_array_S by lia.
      rewrite upwind_update_convex. unfold Rdiv. ring. }
    split; [|split; [now apply advection_array_0 | exact Hint]].
    apply (Forall_nth _ 0%R). intros i Hi.
    rewrite length_advection_array in Hi.
    destruct i as [|i].
    + rewrite advection_array_0 by lia. now apply nonneg_nth.
    + rewrite Hint by lia.
      pose proof (nonneg_nth C (S i) Hpos).
      pose proof (nonneg_nth C (S i - 1) Hpos). nra.
  - intros Hn Hdx. exists (advection_array C U dx dt).
    now apply advection_step_returns.
Qed.

Lemma advection_step_nonneg_witness :
  (forall C', returns_array (advection_step 1%positive 1 1 (1 / 2))
                            {[1%positive := [0; 0; 1]%R]} C' ->
     Forall (Rle 0) C' /\
     nth 0 C' 0%R = nth 0 [0; 0; 1]%R 0%R /\
     forall i, (1 <= i < length [0; 0; 1]%R)%nat ->
       nth i C' 0%R =
         ((1 - 1 * (1 / 2) / 1) * nth i [0; 0; 1] 0
          + 1 * (1 / 2) / 1 * nth (i - 1) [0; 0; 1] 0)%R) /\
  ((1 <= length [0; 0; 1]%R)%nat -> (1 <> 0)%R ->
   exists C', returns_array (advection_step 1%positive 1 1 (1 / 2))
                            {[1%positive := [0; 0; 1]%R]} C').
Proof.
  apply (advection_step_nonneg {[1%positive := [0; 0; 1]%R]} 1%positive
                               [0; 0; 1]%R 1 1 (1 / 2)).
  - reflexivity.
  - repeat (apply List.Forall_cons; [lra|]). apply List.Forall_nil.
  - lra.
Defined.

(** ** Total mass (C3, C4) *)

Lemma sum_below_ext n g1 g2 :
  (forall i, (i < n)%nat -> g1 i = g2 i) -> sum_below n g1 = sum_below n g2.
Proof.
  induction n as [|n IH]; intros H; [done|].
  simpl. rewrite IH by (intros; apply H; lia). now rewrite H by lia.
Qed.

Lemma sum_below_shift n g :
  sum_below (S n) g = (g 0%nat + sum_below n (fun i => g (S i)))%R.
Proof.
  induction n as [|n IH]; [simpl; ring|].
  change (sum_below (S (S n)) g) with (sum_below (S n) g + g (S n))%R.
  rewrite IH. simpl. ring.
Qed.

Lemma total_sum_below (L : list R) :
  total L = sum_below (length L) (fun i => nth i L 0%R).
Proof.
  induction L as [|a L IH]; [done|].
  change (length (a :: L)) with (S (length L)).
  rewrite sum_below_shift. simpl. now rewrite IH.
Qed.

Lemma total_tabulated (L : list R) n g :
  length L = n -> (forall i, (i < n)%nat -> nth i L 0%R = g i) ->
  total L = sum_below n g.
Proof.
  intros <- H. rewrite total_sum_below. now apply sum_below_ext.
Qed.

(** Telescoping: the increments [r * (d (i+1) - d i)] add up to the
    difference of the end fluxes. *)
Lemma sum_below_telescope n (a d : nat -> R) r :
  sum_below n (fun i => a i + r * (d (S i) - d i))%R =
    (sum_below n a + r * (d n - d 0%nat))%R.
Proof.
  induction n as [|n IH]; simpl; [ring|]. rewrite IH. ring.
Qed.

Lemma diffusion_array_flux_form C D dx dt i :
  (2 <= length C)%nat -> (i < length C)%nat ->
  nth i (diffusion_array C D dx dt) 0%R =
    (nth i C 0
     + D * (dt / dx ^ 2) * (face_difference C (S i) - face_difference C i))%R.
Proof.
  intros Hn Hi. unfold face_difference.
  destruct (decide (i = 0%nat)) as [->|H0].
  - rewrite diffusion_array_first by done.
    rewrite decide_True by lia. rewrite decide_False by lia.
    simpl. ring.
  - destruct (decide (i = length C - 1)%nat) as [->|Hl].
    + rewrite diffusion_array_last by done.
      rewrite decide_False by lia. rewrite decide_True by lia.
      replace (length C - 1 - 1)%nat with (length C - 2)%nat by lia. ring.
    + rewrite diffusion_array_interior by lia.
      rewrite !decide_True by lia. unfold central_update.
      replace (S i - 1)%nat with i by lia.
      replace (i + 1)%nat with (S i) by lia. ring.
Qed.

Lemma total_diffusion_array C D dx dt :
  (2 <= length C)%nat -> total (diffusion_array C D dx dt) = total C.
Proof.
  intros Hn.
  rewrite (total_tabulated _ (length C)
             (fun i => nth i C 0
                       + D * (dt / dx ^ 2)
                         * (face_difference C (S i) - face_difference C i))%R).
  - rewrite sum_below_telescope, <- total_sum_below.
    unfold face_difference. rewrite !decide_False by lia. ring.
  - apply length_diffusion_array.
  - intros i Hi. now apply diffusion_array_flux_form.
Qed.

(** C3. On a field of length N >= 3 with D > 0, dx > 0 and dt > 0,
    [diffusion_step] returns a field with the same sum of entries, hence
    the same mass dx * sum. *)
Theorem diffusion_step_conserves_mass
    (h : heap) (pC : loc) (C : list R) (D dx dt : R) :
  h !! pC = Some C -> (3 <= length C)%nat ->
  (0 < D)%R -> (0 < dx)%R -> (0 < dt)%R ->
  exists C',
    returns_array (diffusion_step pC D dx dt) h C' /\
    total C' = total C /\ mass dx C' = mass dx C.
Proof.
  intros HC Hn _ Hdx _. exists (diffusion_array C D dx dt).
  split; [apply diffusion_step_returns; [done | lia | lra]|].
  assert (total (diffusion_array C D dx dt) = total C) as E
    by (apply total_diffusion_array; lia).
  split; [exact E | unfold mass; now rewrite E].
Qed.

Lemma diffusion_step_conserves_mass_witness :
  exists C',
    returns_array (diffusion_step 1%positive 2 1 (1 / 8))
                  {[1%positive := [0; 1; 0]%R]} C' /\
    total C' = total [0; 1; 0]%R /\ mass 1 C' = mass 1 [0; 1; 0]%R.
Proof.
  apply (diffusion_step_conserves_mass {[1%positive := [0; 1; 0]%R]}
           1%positive [0; 1; 0]%R 2 1 (1 / 8)).
  - reflexivity.
  - simpl. lia.
  - lra.
  - lra.
  - lra.
Defined.

Lemma advection_array_flux_form C U dx dt i :
  (i < length C)%nat ->
  nth i (advection_array C U dx dt) 0%R =
    (nth i C 0
     + - (U * (dt / dx)) * (nth (S i - 1) C 0 - nth (i - 1) C 0))%R.
Proof.
  intros Hi. destruct i as [|i].
  - rewrite advection_array_0 by lia. simpl. ring.
  - rewrite advection_array_S by lia. unfold upwind_update.
    replace (S (S i) - 1)%nat with (S i) by lia. ring.
Qed.

Lemma total_advection_array C U dx dt :
  total (advection_array C U dx dt) =
    (total C - U * (dt / dx) * (nth (length C - 1) C 0 - nth 0 C 0))%R.
Proof.
  rewrite (total_tabulated _ (length C)
             (fun i => nth i C 0
                       + - (U * (dt / dx))
                         * (nth (S i - 1) C 0 - nth (i - 1) C 0))%R).
  - rewrite (sum_below_telescope _ _ (fun i => nth (i - 1) C 0%R)).
    rewrite <- total_sum_below. simpl. ring.
  - apply length_advection_array.
  - intros i Hi. now apply advection_array_flux_form.
Qed.

(** C4, as the code has it.  On a field of length N >= 3 with U > 0, dx > 0
    and dt > 0, [advection_step] changes the sum of the entries by the net
    flux through the two ends, U * (dt/dx) * (C[N-1] - C[0]); the mass
    dx * sum is unchanged exactly when the two end values are equal. *)
Theorem advection_step_mass_balance
    (h : heap) (pC : loc) (C : list R) (U dx dt : R) :
  h !! pC = Some C -> (3 <= length C)%nat ->
  (0 < U)%R -> (0 < dx)%R -> (0 < dt)%R ->
  exists C',
    returns_array (advection_step pC U dx dt) h C' /\
    total C' =
      (total C - U * (dt / dx) * (nth (length C - 1) C 0 - nth 0 C 0))%R /\
    (total C' = total C <-> nth (length C - 1) C 0%R = nth 0 C 0%R) /\
    (mass dx C' = mass dx C <-> nth (length C - 1) C 0%R = nth 0 C 0%R).
Proof.
  intros HC Hn HU Hdx Hdt. exists (advection_array C U dx dt).
  split; [apply advection_step_returns; [done | lia | intros _; lra]|].
  pose proof (total_advection_array C U dx dt) as E.
  assert (0 < U * (dt / dx))%R as Hc.
  { apply Rmult_lt_0_compat; [done|]. now apply Rdiv_lt_0_compat. }
  split; [exact E|]. unfold mass. rewrite E.
  set (c := (U * (dt / dx))%R) in *.
  set (d := (nth (length C - 1) C 0 - nth 0 C 0)%R).
  assert ((total C - c * d)%R = total C -> d = 0%R) as Hd.
  { intros H. assert (c * d = 0)%R as H0 by lra.
    apply Rmult_integral in H0 as [H0|H0]; lra. }
  split; split; intros H.
  - apply Hd in H. unfold d in H. lra.
  - replace d with 0%R by (unfold d; lra). ring.
  - apply Rmult_eq_reg_l in H; [|lra]. apply Hd in H. unfold d in H. lra.
  - replace d with 0%R by (unfold d; lra). ring.
Qed.

Lemma advection_step_mass_balance_witness :
  exists C',
    returns_array (advection_step 1%positive 1 1 (1 / 2))
                  {[1%positive := [0; 0; 1]%R]} C' /\
    total C' =
      (total [0; 0; 1]
       - 1 * (1 / 2 / 1) * (nth (3 - 1) [0; 0; 1] 0 - nth 0 [0; 0; 1] 0))%R /\
    (total C' = total [0; 0; 1]%R <->
       nth (3 - 1) [0; 0; 1]%R 0%R = nth 0 [0; 0; 1]%R 0%R) /\
    (mass 1 C' = mass 1 [0; 0; 1]%R <->
       nth (3 - 1) [0; 0; 1]%R 0%R = nth 0 [0; 0; 1]%R 0%R).
Proof.
  apply (advection_step_mass_balance {[1%positive := [0; 0; 1]%R]}
           1%positive [0; 0; 1]%R 1 1 (1 / 2)).
  - reflexivity.
  - simpl. lia.
  - lra.
  - lra.
  - lra.
Defined.

(** C4 as stated fails: with Courant number 1/2 the pulse [0; 0; 1] loses
    half of its mass through the right end in one step. *)
Lemma advection_step_mass_counterexample :
  returns_array (advection_step 1%positive 1 1 (1 / 2))
                {[1%positive := [0; 0; 1]%R]} [0; 0; 1 / 2]%R /\
  total [0; 0; 1 / 2]%R = (1 / 2)%R /\
  total [0; 0; 1]%R = 1%R /\
  total [0; 0; 1 / 2]%R <> total [0; 0; 1]%R.
Proof.
  split.
  { rewrite <- advection_array_pulse.
    apply advection_step_returns; [reflexivity | simpl; lia | intros _; lra]. }
  simpl. repeat split; lra.
Qed.

(** ** The combined stepper against the isolated steppers (C2) *)

Lemma adr_step_div0 (h : heap) pC C U D k dt :
  h !! pC = Some C -> (3 <= length C)%nat ->
  adr_step pC U D k 0 dt h =
    (inl ZeroDivisionError, <[fresh (dom h) := replicate (length C) 0%R]> h).
Proof.
  intros HC Hn. unfold adr_step.
  erewrite bind_inr by (by apply len_ok).
  erewrite bind_inr by (by apply zeros_like_ok).
  unfold range. rewrite seqZ_cons by lia.
  erewrite bind_inl; [reflexivity|].
  apply for_each_raise_first. rewrite bind_assoc.
  erewrite bind_inl; [reflexivity | apply fdiv_zero].
Qed.

Lemma adr_step_outcome (h : heap) pC C U D k dx dt C' :
  h !! pC = Some C -> (3 <= length C)%nat ->
  returns_array (adr_step pC U D k dx dt) h C' ->
  dx <> 0%R /\ C' = adr_array C U D k dx dt.
Proof.
  intros HC Hn Hret.
  assert (dx <> 0%R) as Hdx.
  { intros ->. revert Hret. eapply not_returns_raise.
    now apply (adr_step_div0 h pC C). }
  split; [done|].
  eapply returns_array_det; [exact Hret|].
  apply adr_step_returns; [done | lia | done].
Qed.

Lemma adr_update_advection_only C U dx dt i :
  adr_update C U 0 0 dx dt i = upwind_update C (U * (dt / dx)) i.
Proof. unfold adr_update, upwind_update. ring. Qed.

Lemma adr_update_diffusion_only C D dx dt i :
  adr_update C 0 D 0 dx dt i = central_update C (D * (dt / dx ^ 2)) i.
Proof. unfold adr_update, central_update. ring. Qed.

Lemma adr_update_reaction_only C k dx dt i :
  adr_update C 0 0 k dx dt i = (nth i C 0 * (1 - k * dt))%R.
Proof. unfold adr_update. ring. Qed.

(** The explicit Euler factor [1 - x] meets the exact factor [exp (-x)]
    only at [x = 0]. *)
Lemma euler_factor_exact_iff (x : R) : (1 - x)%R = exp (- x) <-> x = 0%R.
Proof.
  split.
  - intros E. destruct (Req_dec x 0) as [|Hx]; [done|].
    assert (- x <> 0)%R as Hx' by lra.
    pose proof (exp_ineq1 (- x) Hx'). lra.
  - intros ->. rewrite Ropp_0, exp_0. ring.
Qed.

(** C2, as the code has it.  At every interior point, [adr_step] with only
    U non-zero agrees with [advection_step], and with only D non-zero agrees
    with [diffusion_step].  With only k non-zero it yields
    [C[i] * (1 - k*dt)], the first-order factor, where [reaction_step]
    yields [C[i] * exp (-k*dt)]; the two agree exactly when [C[i] = 0] or
    [k*dt = 0].  All six calls return when dx is not zero. *)
Theorem adr_step_isolated_terms
    (h : heap) (pC : loc) (C : list R) (U D k dx dt : R) (i : nat) :
  h !! pC = Some C -> (1 <= i <= length C - 2)%nat ->
  (forall A S,
     returns_array (adr_step pC U 0 0 dx dt) h A ->
     returns_array (advection_step pC U dx dt) h S ->
     nth i A 0%R = nth i S 0%R) /\
  (forall A S,
     returns_array (adr_step pC 0 D 0 dx dt) h A ->
     returns_array (diffusion_step pC D dx dt) h S ->
     nth i A 0%R = nth i S 0%R) /\
  (forall A S,
     returns_array (adr_step pC 0 0 k dx dt) h A ->
     returns_array (reaction_step pC k dt) h S ->
     nth i A 0%R = (nth i C 0 * (1 - k * dt))%R /\
     nth i S 0%R = (nth i C 0 * exp (- k * dt))%R /\
     (nth i A 0%R = nth i S 0%R <-> nth i C 0%R = 0%R \/ (k * dt)%R = 0%R)) /\
  (dx <> 0%R ->
   (exists A, returns_array (adr_step pC U 0 0 dx dt) h A) /\
   (exists S, returns_array (advection_step pC U dx dt) h S) /\
   (exists A, returns_array (adr_step pC 0 D 0 dx dt) h A) /\
   (exists S, returns_array (diffusion_step pC D dx dt) h S) /\
   (exists A, returns_array (adr_step pC 0 0 k dx dt) h A) /\
   (exists S, returns_array (reaction_step pC k dt) h S)).
Proof.
  intros HC Hi. assert (3 <= length C)%nat as Hn by lia.
  repeat apply conj.
  - intros A S HA HS.
    destruct (adr_step_outcome _ _ _ _ _ _ _ _ _ HC Hn HA) as [Hdx ->].
    destruct (advection_step_outcome _ _ _ _ _ _ _ HC HS) as (_ & _ & ->).
    rewrite adr_array_interior, advection_array_S by lia.
    apply adr_update_advection_only.
  - intros A S HA HS.
    destruct (adr_step_outcome _ _ _ _ _ _ _ _ _ HC Hn HA) as [Hdx ->].
    assert (S = diffusion_array C D dx dt) as ->.
    { eapply returns_array_det; [exact HS|].
      apply diffusion_step_returns; [done | lia | done]. }
    rewrite adr_array_interior, diffusion_array_interior by lia.
    apply adr_update_diffusion_only.
  - intros A S HA HS.
    destruct (adr_step_outcome _ _ _ _ _ _ _ _ _ HC Hn HA) as [Hdx ->].
    assert (S = reaction_array C k dt) as ->.
    { eapply returns_array_det; [exact HS|]. now apply reaction_step_returns. }
    rewrite adr_array_interior, reaction_array_nth by lia.
    rewrite adr_update_reaction_only.
    split; [done|]. split; [done|].
    replace (- k * dt)%R with (- (k * dt))%R by ring.
    split.
    + intros E. destruct (Req_dec (nth i C 0%R) 0%R) as [|Hc]; [now left|right].
      apply Rmult_eq_reg_l in E; [|done].
      now apply euler_factor_exact_iff.
    + intros [->| ->]; [ring|]. rewrite Ropp_0, exp_0. ring.
  - intros Hdx. repeat apply conj.
    + eexists. apply (adr_step_returns h pC C); [done | lia | done].
    + eexists. apply (advection_step_returns h pC C); [done | lia | done].
    + eexists. apply (adr_step_returns h pC C); [done | lia | done].
    + eexists. apply (diffusion_step_returns h pC C); [done | lia | done].
    + eexists. apply (adr_step_returns h pC C); [done | lia | done].
    + eexists. now apply (reaction_step_returns h pC C).
Qed.

Lemma adr_step_isolated_terms_witness :
  let h : heap := {[1%positive := [1; 1; 1]%R]} in
  let C := [1; 1; 1]%R in
  (forall A S,
     returns_array (adr_step 1%positive 1 0 0 1 (1 / 2)) h A ->
     returns_array (advection_step 1%positive 1 1 (1 / 2)) h S ->
     nth 1 A 0%R = nth 1 S 0%R) /\
  (forall A S,
     returns_array (adr_step 1%positive 0 1 0 1 (1 / 2)) h A ->
     returns_array (diffusion_step 1%positive 1 1 (1 / 2)) h S ->
     nth 1 A 0%R = nth 1 S 0%R) /\
  (forall A S,
     returns_array (adr_step 1%positive 0 0 1 1 (1 / 2)) h A ->
     returns_array (reaction_step 1%positive 1 (1 / 2)) h S ->
     nth 1 A 0%R = (nth 1 C 0 * (1 - 1 * (1 / 2)))%R /\
     nth 1 S 0%R = (nth 1 C 0 * exp (- 1 * (1 / 2)))%R /\
     (nth 1 A 0%R = nth 1 S 0%R <->
        nth 1 C 0%R = 0%R \/ (1 * (1 / 2))%R = 0%R)) /\
  ((1 <> 0)%R ->
   (exists A, returns_array (adr_step 1%positive 1 0 0 1 (1 / 2)) h A) /\
   (exists S, returns_array (advection_step 1%positive 1 1 (1 / 2)) h S) /\
   (exists A, returns_array (adr_step 1%positive 0 1 0 1 (1 / 2)) h A) /\
   (exists S, returns_array (diffusion_step 1%positive 1 1 (1 / 2)) h S) /\
   (exists A, returns_array (adr_step 1%positive 0 0 1 1 (1 / 2)) h A) /\
   (exists S, returns_array (reaction_step 1%positive 1 (1 / 2)) h S)).
Proof.
  intros h C.
  apply (adr_step_isolated_terms h 1%positive C 1 1 1 1 (1 / 2) 1).
  - reflexivity.
  - simpl. lia.
Defined.

(** C2 as stated fails in its reaction part: on the constant field
    [1; 1; 1] with k = 1 and dt = 1/2 the combined stepper gives 1/2 at the
    interior point, the reaction stepper gives exp (-1/2) > 1/2. *)
Lemma adr_step_reaction_counterexample :
  exists S,
    returns_array (adr_step 1%positive 0 0 1 1 (1 / 2))
                  {[1%positive := [1; 1; 1]%R]} [1; 1 / 2; 1]%R /\
    returns_array (reaction_step 1%positive 1 (1 / 2))
                  {[1%positive := [1; 1; 1]%R]} S /\
    nth 1 S 0%R = exp (- (1 / 2)) /\
    nth 1 [1; 1 / 2; 1]%R 0%R <> nth 1 S 0%R.
Proof.
  exists (reaction_array [1; 1; 1]%R 1 (1 / 2)).
  split.
  { rewrite <- adr_array_decay.
    apply adr_step_returns; [reflexivity | simpl; lia | lra]. }
  split; [now apply reaction_step_returns|].
  rewrite reaction_array_nth. simpl.
  replace (- (1) * (1 / 2))%R with (- (1 / 2))%R by lra.
  assert (1 / 2 < exp (- (1 / 2)))%R as Hlt.
  { pose proof (exp_ineq1 (- (1 / 2))%R). lra. }
  split; lra.
Qed.

(** ** Repeated reaction steps (C5) *)

Lemma reaction_array_compose C k dt s :
  map (fun c => c * exp (- k * (s + dt)))%R C =
    map (fun c => c * exp (- k * s))%R (reaction_array C k dt).
Proof.
  unfold reaction_array. rewrite map_map. apply map_ext. intros c.
  replace (- k * (s + dt))%R with (- k * dt + - k * s)%R by ring.
  rewrite exp_plus. ring.
Qed.

Lemma time_loop_reaction (n : nat) (h : heap) pC C k dt :
  h !! pC = Some C ->
  returns_array (time_loop (fun p => reaction_step p k dt) n pC) h
                (map (fun c => c * exp (- k * (INR n * dt)))%R C).
Proof.
  revert h pC C. induction n as [|n IH]; intros h pC C HC.
  - exists pC, h. split; [reflexivity|]. rewrite HC. f_equal.
    rewrite <- (map_id C) at 1. apply map_ext. intros c. simpl.
    replace (- k * (0 * dt))%R with 0%R by ring. rewrite exp_0. ring.
  - cbn [time_loop].
    replace (INR (S n) * dt)%R with (INR n * dt + dt)%R
      by (rewrite S_INR; ring).
    rewrite reaction_array_compose.
    eapply returns_array_bind; [now apply (reaction_step_ok h pC C)|].
    apply IH, lookup_insert_eq.
Qed.

(** C5. Applying [reaction_step] n times to a field C0 returns the field
    whose entry at every grid point is [C0[i] * exp (-k * (n*dt))]. *)
Theorem reaction_steps_exact
    (n : nat) (h : heap) (pC : loc) (C0 : list R) (k dt : R) :
  h !! pC = Some C0 -> (0 < k)%R -> (0 < dt)%R ->
  exists C',
    returns_array (time_loop (fun p => reaction_step p k dt) n pC) h C' /\
    length C' = length C0 /\
    forall i, (i < length C0)%nat ->
      nth i C' 0%R = (nth i C0 0 * exp (- k * (INR n * dt)))%R.
Proof.
  intros HC _ _. eexists.
  split; [exact (time_loop_reaction n h pC C0 k dt HC)|].
  split; [apply length_map|].
  intros i Hi.
  rewrite <- (Rmult_0_l (exp (- k * (INR n * dt)))) at 1.
  apply (map_nth (fun c => c * exp (- k * (INR n * dt)))%R).
Qed.

Lemma reaction_steps_exact_witness :
  exists C',
    returns_array (time_loop (fun p => reaction_step p 1 (1 / 2)) 2 1%positive)
                  {[1%positive := [1; 2; 4]%R]} C' /\
    length C' = length [1; 2; 4]%R /\
    forall i, (i < length [1; 2; 4]%R)%nat ->
      nth i C' 0%R = (nth i [1; 2; 4] 0 * exp (- 1 * (INR 2 * (1 / 2))))%R.
Proof.
  apply (reaction_steps_exact 2 {[1%positive := [1; 2; 4]%R]} 1%positive
                              [1; 2; 4]%R 1 (1 / 2)).
  - reflexivity.
  - lra.
  - lra.
Defined.

(** ** Choice of the time step (C6) *)

Lemma float_div_ok a b : b <> 0%R -> float_div a b = inr (a / b)%R.
Proof. intros Hb. unfold float_div. now rewrite decide_False. Qed.

Lemma float_div_zero a : float_div a 0 = inl ZeroDivisionError.
Proof. unfold float_div. now rewrite decide_True. Qed.











(** ** Analytical solution of pure diffusion (C8) *)

Lemma sigma_t_pos sigma_0 D t :
  (0 < sigma_0)%R -> (0 <= D)%R -> (0 <= t)%R -> (0 < sigma_t sigma_0 D t)%R.
Proof.
  intros Hs HD Ht. unfold sigma_t. apply sqrt_lt_R0.
  pose proof (Rmult_le_pos D t HD Ht). nra.
Qed.

Lemma sigma_t_initial sigma_0 D :
  (0 < sigma_0)%R -> sigma_t sigma_0 D 0 = sigma_0.
Proof.
  intros Hs. unfold sigma_t.
  replace (sigma_0 ^ 2 + 2 * D * 0)%R with (sigma_0 ^ 2)%R by ring.
  apply sqrt_pow2. lra.
Qed.

(** C8. For sigma0 > 0, D >= 0 and t >= 0 the reference solution is the
    Gaussian of width [sqrt (sigma0^2 + 2*D*t)] and amplitude
    [sigma0 / sigma(t)]; at t = 0 it is the initial pulse, and the product
    of width and amplitude is sigma0 at every time. *)
Theorem pure_diffusion_reference (sigma_0 mu D t : R) :
  (0 < sigma_0)%R -> (0 <= D)%R -> (0 <= t)%R ->
  sigma_t sigma_0 D t = sqrt (sigma_0 ^ 2 + 2 * D * t) /\
  amplitude sigma_0 D t = (sigma_0 / sigma_t sigma_0 D t)%R /\
  (forall x,
     C_t sigma_0 mu D t x =
       (sigma_0 / sigma_t sigma_0 D t
        * exp (- 0.5 * ((x - mu) / sigma_t sigma_0 D t) ^ 2))%R) /\
  (forall x, C_t sigma_0 mu D 0 x = C_0 sigma_0 mu x) /\
  (sigma_t sigma_0 D t * amplitude sigma_0 D t)%R = sigma_0 /\
  (sigma_t sigma_0 D t * amplitude sigma_0 D t)%R =
    (sigma_t sigma_0 D 0 * amplitude sigma_0 D 0)%R.
Proof.
  intros Hs HD Ht.
  pose proof (sigma_t_pos sigma_0 D t Hs HD Ht) as Hpos.
  pose proof (sigma_t_initial sigma_0 D Hs) as H0.
  assert (forall s, (0 < s)%R -> (s * (sigma_0 / s))%R = sigma_0) as Hprod
    by (intros s Hs'; field; lra).
  repeat apply conj; try reflexivity.
  - intros x. unfold C_t, C_0, amplitude. rewrite H0.
    replace (sigma_0 / sigma_0)%R with 1%R by (field; lra). ring.
  - unfold amplitude. now apply Hprod.
  - unfold amplitude. rewrite H0, !Hprod by lra. reflexivity.
Qed.

Lemma pure_diffusion_reference_witness :
  sigma_t 5 2 10 = sqrt (5 ^ 2 + 2 * 2 * 10) /\
  amplitude 5 2 10 = (5 / sigma_t 5 2 10)%R /\
  (forall x,
     C_t 5 50 2 10 x =
       (5 / sigma_t 5 2 10 * exp (- 0.5 * ((x - 50) / sigma_t 5 2 10) ^ 2))%R) /\
  (forall x, C_t 5 50 2 0 x = C_0 5 50 x) /\
  (sigma_t 5 2 10 * amplitude 5 2 10)%R = 5%R /\
  (sigma_t 5 2 10 * amplitude 5 2 10)%R = (sigma_t 5 2 0 * amplitude 5 2 0)%R.
Proof.
  apply (pure_diffusion_reference 5 50 2 10); lra.
Defined.

(** ** Purity of the steppers (C9) *)

Section Frame.
Variables (h0 : heap) (pN : loc) (n : nat).
Hypothesis HpN : h0 !! pN = None.

Lemma preserves_ret {A} (a : A) : preserves h0 pN n (ret a).
Proof. intros h Hh. exact Hh. Qed.

Lemma preserves_bind {A B} (m : M A) (k : A -> M B) :
  preserves h0 pN n m -> (forall a, preserves h0 pN n (k a)) ->
  preserves h0 pN n (bind m k).
Proof.
  intros Hm Hk h Hh. unfold bind. specialize (Hm h Hh).
  destruct (m h) as [[e|a] h1]; [exact Hm | now apply Hk].
Qed.

Lemma preserves_getitem p i : preserves h0 pN n (getitem p i).
Proof.
  intros h Hh. unfold getitem.
  destruct (h !! p) as [l|]; [|exact Hh].
  destruct (py_index (length l) i) as [j|]; [|exact Hh].
  destruct (l !! j); exact Hh.
Qed.

Lemma preserves_fdiv a b : preserves h0 pN n (fdiv a b).
Proof. intros h Hh. exact Hh. Qed.

Lemma preserves_setitem i v : preserves h0 pN n (setitem pN i v).
Proof.
  intros h [Hframe (L & HL & Hlen)]. unfold setitem. rewrite HL.
  destruct (py_index (length L) i) as [j|]; [|by split; eauto].
  split.
  - intros l Hl. cbn [snd]. rewrite lookup_insert_ne; [now apply Hframe|].
    intros <-. rewrite HpN in Hl. now destruct Hl.
  - exists (<[j := v]> L). cbn [snd].
    split; [apply lookup_insert_eq | now rewrite length_insert].
Qed.

Lemma preserves_for_each js body :
  (forall i, preserves h0 pN n (body i)) ->
  preserves h0 pN n (for_each js body).
Proof.
  intros Hbody. induction js as [|i js IH]; [apply preserves_ret|].
  apply preserves_bind; [apply Hbody | intros _; exact IH].
Qed.

Lemma output_only_alloc L :
  length L = n -> output_only h0 pN n (<[pN := L]> h0).
Proof.
  intros HL. split.
  - intros l Hl. rewrite lookup_insert_ne; [done|].
    intros <-. rewrite HpN in Hl. now destruct Hl.
  - exists L. split; [apply lookup_insert_eq | done].
Qed.

End Frame.

Lemma yields_ret a : yields a (ret a).
Proof. intros h x h' E. now inversion E. Qed.

Lemma yields_bind {A} a (m : M A) (k : A -> M loc) :
  (forall y, yields a (k y)) -> yields a (bind m k).
Proof.
  intros Hk h x h' E. unfold bind in E.
  destruct (m h) as [[e|y] h1]; [discriminate | now apply (Hk y h1 x h')].
Qed.

Lemma pure_call_after_alloc (m rest : M loc) (h : heap) (C : list R) :
  let pN := fresh (dom h) in
  m h = rest (<[pN := replicate (length C) 0%R]> h) ->
  preserves h pN (length C) rest -> yields pN rest ->
  pure_call m h C.
Proof.
  intros pN Em Hpres Hyield.
  assert (h !! pN = None) as HpN by apply fresh_loc_not_in.
  pose proof (Hpres _ (output_only_alloc h pN (length C) HpN _
                         (length_replicate (length C) 0%R)))
    as [Hframe Hout].
  unfold pure_call. rewrite Em. split; [exact Hframe|].
  intros p Hp.
  destruct (rest (<[pN:=replicate (length C) 0%R]> h)) as [r h'] eqn:E.
  cbn [fst snd] in *. subst r.
  rewrite (Hyield _ _ _ E). split; [exact HpN | exact Hout].
Qed.

Ltac py_frame :=
  repeat first
    [ apply preserves_ret
    | apply preserves_getitem
    | apply preserves_fdiv
    | apply preserves_setitem; assumption
    | apply preserves_for_each; intros ?
    | apply preserves_bind; [|intros ?] ].

Ltac py_yields :=
  repeat first [ apply yields_ret | apply yields_bind; intros ? ].

Lemma advection_step_pure (h : heap) pC C U dx dt :
  h !! pC = Some C -> pure_call (advection_step pC U dx dt) h C.
Proof.
  intros HC. eapply pure_call_after_alloc.
  - unfold advection_step.
    erewrite bind_inr by (by apply len_ok).
    erewrite bind_inr by (by apply zeros_like_ok). reflexivity.
  - pose proof (fresh_loc_not_in h). py_frame.
  - py_yields.
Qed.

Lemma diffusion_step_pure (h : heap) pC C D dx dt :
  h !! pC = Some C -> pure_call (diffusion_step pC D dx dt) h C.
Proof.
  intros HC. eapply pure_call_after_alloc.
  - unfold diffusion_step.
    erewrite bind_inr by (by apply len_ok).
    erewrite bind_inr by (by apply zeros_like_ok). reflexivity.
  - pose proof (fresh_loc_not_in h). py_frame.
  - py_yields.
Qed.

Lemma adr_step_pure (h : heap) pC C U D k dx dt :
  h !! pC = Some C -> pure_call (adr_step pC U D k dx dt) h C.
Proof.
  intros HC. eapply pure_call_after_alloc.
  - unfold adr_step.
    erewrite bind_inr by (by apply len_ok).
    erewrite bind_inr by (by apply zeros_like_ok). reflexivity.
  - pose proof (fresh_loc_not_in h). py_frame.
  - py_yields.
Qed.

Lemma reaction_step_pure (h : heap) pC C k dt :
  h !! pC = Some C -> pure_call (reaction_step pC k dt) h C.
Proof.
  intros HC. unfold pure_call. rewrite (reaction_step_ok h pC C) by done.
  cbn [fst snd]. split.
  - intros l Hl. rewrite lookup_insert_ne; [done|].
    intros <-. rewrite fresh_loc_not_in in Hl. now destruct Hl.
  - intros p Hp. inversion Hp; subst p.
    split; [apply fresh_loc_not_in|].
    exists (reaction_array C k dt).
    split; [apply lookup_insert_eq | apply length_reaction_array].
Qed.

Lemma returns_array_value (m : M loc) (h : heap) C' :
  returns_array m h C' -> exists p, (m h).1 = inr p.
Proof. intros (p & h' & E & _). exists p. now rewrite E. Qed.

(** C9. Each of the four steppers is pure for its input field: the call
    changes no cell of the heap it was given (so the input field keeps its
    entries, whether the call returns or raises), and a returned location
    is newly allocated and holds an array of the input's length.  On a
    field of length N >= 3 with non-zero dx all four calls return. *)
Theorem steppers_pure (h : heap) (pC : loc) (C : list R) (U D k dx dt : R) :
  h !! pC = Some C ->
  pure_call (advection_step pC U dx dt) h C /\
  pure_call (diffusion_step pC D dx dt) h C /\
  pure_call (reaction_step pC k dt) h C /\
  pure_call (adr_step pC U D k dx dt) h C /\
  ((3 <= length C)%nat -> dx <> 0%R ->
   (exists p, (advection_step pC U dx dt h).1 = inr p) /\
   (exists p, (diffusion_step pC D dx dt h).1 = inr p) /\
   (exists p, (reaction_step pC k dt h).1 = inr p) /\
   (exists p, (adr_step pC U D k dx dt h).1 = inr p)).
Proof.
  intros HC.
  split; [now apply advection_step_pure|].
  split; [now apply diffusion_step_pure|].
  split; [now apply reaction_step_pure|].
  split; [now apply adr_step_pure|].
  intros Hn Hdx. repeat apply conj; eapply returns_array_value.
  - apply (advection_step_returns h pC C); [done | lia | done].
  - apply (diffusion_step_returns h pC C); [done | lia | done].
  - now apply (reaction_step_returns h pC C).
  - apply (adr_step_returns h pC C); [done | lia | done].
Qed.

Lemma steppers_pure_witness :
  let h : heap := {[1%positive := [1; 2; 4]%R]} in
  let C := [1; 2; 4]%R in
  pure_call (advection_step 1%positive 1 1 (1 / 2)) h C /\
  pure_call (diffusion_step 1%positive 1 1 (1 / 2)) h C /\
  pure_call (reaction_step 1%positive 1 (1 / 2)) h C /\
  pure_call (adr_step 1%positive 1 1 1 1 (1 / 2)) h C /\
  ((3 <= length C)%nat -> (1 <> 0)%R ->
   (exists p, (advection_step 1%positive 1 1 (1 / 2) h).1 = inr p) /\
   (exists p, (diffusion_step 1%positive 1 1 (1 / 2) h).1 = inr p) /\
   (exists p, (reaction_step 1%positive 1 (1 / 2) h).1 = inr p) /\
   (exists p, (adr_step 1%positive 1 1 1 1 (1 / 2) h).1 = inr p)).
Proof.
  intros h C. apply (steppers_pure h 1%positive C 1 1 1 1 (1 / 2)).
  reflexivity.
Defined.

(** * Further properties of the notebook's code *)

(** ** Every outcome of the steppers *)

Lemma value_of_run {A} (m : M A) (h h' : heap) r :
  m h = (r, h') -> (m h).1 = r.
Proof. intros E. now rewrite E. Qed.

Lemma advection_array_singleton c U dx dt :
  advection_array [c] U dx dt = [c].
Proof. reflexivity. Qed.

Lemma diffusion_step_empty (h : heap) pC D dx dt :
  h !! pC = Some [] ->
  diffusion_step pC D dx dt h = (inl IndexError, <[fresh (dom h) := []]> h).
Proof.
  intros HC. unfold diffusion_step.
  erewrite bind_inr by (by apply len_ok).
  erewrite bind_inr by (by apply zeros_like_ok).
  unfold range. rewrite seqZ_nil by (simpl; lia). cbn [for_each].
  erewrite bind_inr by reflexivity.
  erewrite bind_inl; [reflexivity|].
  erewrite bind_inl; [reflexivity|].
  eapply get_input_out; [eassumption | simpl; lia].
Qed.

Lemma diffusion_step_div0 (h : heap) pC C D dt :
  h !! pC = Some C -> (1 <= length C)%nat ->
  diffusion_step pC D 0 dt h =
    (inl ZeroDivisionError, <[fresh (dom h) := replicate (length C) 0%R]> h).
Proof.
  intros HC Hn. unfold diffusion_step.
  assert ((0 ^ 2)%R = 0%R) as E0 by ring.
  erewrite bind_inr by (by apply len_ok).
  erewrite bind_inr by (by apply zeros_like_ok).
  unfold range.
  destruct (decide (3 <= length C)%nat) as [H3|H3].
  - rewrite seqZ_cons by lia.
    erewrite bind_inl; [reflexivity|].
    apply for_each_raise_first. py_step.
    erewrite bind_inl; [reflexivity|]. rewrite E0. apply fdiv_zero.
  - rewrite seqZ_nil by lia. cbn [for_each].
    erewrite bind_inr by reflexivity.
    erewrite bind_inl; [reflexivity|].
    py_step.
    erewrite bind_inl; [reflexivity|]. rewrite E0. apply fdiv_zero.
Qed.

Lemma adr_step_empty (h : heap) pC U D k dx dt :
  h !! pC = Some [] ->
  adr_step pC U D k dx dt h = (inl IndexError, <[fresh (dom h) := []]> h).
Proof.
  intros HC. unfold adr_step.
  erewrite bind_inr by (by apply len_ok).
  erewrite bind_inr by (by apply zeros_like_ok).
  unfold range. rewrite seqZ_nil by (simpl; lia). cbn [for_each].
  erewrite bind_inr by reflexivity.
  erewrite bind_inl; [reflexivity|].
  erewrite bind_inl; [reflexivity|].
  eapply get_input_out; [eassumption | simpl; lia].
Qed.

Lemma adr_step_pair (h : heap) pC c0 c1 U D k dx dt :
  h !! pC = Some [c0; c1] ->
  adr_step pC U D k dx dt h =
    (inr (fresh (dom h)), <[fresh (dom h) := [c0; c0]]> h).
Proof.
  intros HC. unfold adr_step.
  erewrite bind_inr by (by apply len_ok).
  erewrite bind_inr by (by apply zeros_like_ok).
  unfold range. rewrite seqZ_nil by (simpl; lia). cbn [for_each].
  erewrite bind_inr by reflexivity.
  assert (length [c0; c1] = 2%nat) as E2 by reflexivity.
  py_run. rewrite E2. reflexivity.
Qed.

(** X1. Outcomes of [advection_step]: an empty field raises IndexError; a
    one-entry field is copied, whatever dx; on longer fields a zero dx
    raises ZeroDivisionError and any other dx returns a field of the same
    length. *)
Theorem advection_step_outcomes
    (h : heap) (pC : loc) (C : list R) (U dx dt : R) :
  h !! pC = Some C ->
  (length C = 0%nat -> (advection_step pC U dx dt h).1 = inl IndexError) /\
  (length C = 1%nat -> returns_array (advection_step pC U dx dt) h C) /\
  ((2 <= length C)%nat -> dx = 0%R ->
   (advection_step pC U dx dt h).1 = inl ZeroDivisionError) /\
  ((2 <= length C)%nat -> dx <> 0%R ->
   exists C', returns_array (advection_step pC U dx dt) h C' /\
              length C' = length C).
Proof.
  intros HC. repeat apply conj.
  - intros H0. apply nil_length_inv in H0. subst C.
    eapply value_of_run. now apply advection_step_empty.
  - intros H1. destruct C as [|c [|c' C]]; try discriminate.
    rewrite <- (advection_array_singleton c U dx dt).
    apply advection_step_returns; [done | simpl; lia | simpl; lia].
  - intros H2 ->. eapply value_of_run.
    now apply (advection_step_div0 h pC C).
  - intros H2 Hdx. exists (advection_array C U dx dt).
    split; [|apply length_advection_array].
    apply advection_step_returns; [done | lia | done].
Qed.

Lemma advection_step_outcomes_witness :
  (advection_step 1%positive 1 0 1 {[1%positive := [1; 2]%R]}).1
    = inl ZeroDivisionError /\
  returns_array (advection_step 1%positive 1 0 1) {[1%positive := [7%R]]}
                [7%R].
Proof.
  split.
  - apply (advection_step_outcomes {[1%positive := [1; 2]%R]} 1%positive
             [1; 2]%R 1 0 1); [reflexivity | simpl; lia | reflexivity].
  - apply (advection_step_outcomes {[1%positive := [7%R]]} 1%positive
             [7%R] 1 0 1); reflexivity.
Defined.

(** X2. Outcomes of [diffusion_step]: it returns exactly on fields of at
    least two entries with a non-zero dx.  An empty field raises
    IndexError; a zero dx raises ZeroDivisionError on every non-empty
    field; a one-entry field with non-zero dx raises IndexError, from the
    read of [C[1]]. *)
Theorem diffusion_step_outcomes
    (h : heap) (pC : loc) (C : list R) (D dx dt : R) :
  h !! pC = Some C ->
  (length C = 0%nat -> (diffusion_step pC D dx dt h).1 = inl IndexError) /\
  ((1 <= length C)%nat -> dx = 0%R ->
   (diffusion_step pC D dx dt h).1 = inl ZeroDivisionError) /\
  (length C = 1%nat -> dx <> 0%R ->
   (diffusion_step pC D dx dt h).1 = inl IndexError) /\
  ((2 <= length C)%nat -> dx <> 0%R ->
   exists C', returns_array (diffusion_step pC D dx dt) h C' /\
              length C' = length C).
Proof.
  intros HC. repeat apply conj.
  - intros H0. apply nil_length_inv in H0. subst C.
    eapply value_of_run. now apply diffusion_step_empty.
  - intros H1 ->. eapply value_of_run.
    now apply (diffusion_step_div0 h pC C).
  - intros H1 Hdx. destruct C as [|c [|c' C]]; try discriminate.
    eapply value_of_run. now apply (diffusion_step_singleton h pC c).
  - intros H2 Hdx. exists (diffusion_array C D dx dt).
    split; [|apply length_diffusion_array].
    now apply diffusion_step_returns.
Qed.

Lemma diffusion_step_outcomes_witness :
  (diffusion_step 1%positive 1 1 1 {[1%positive := [7%R]]}).1
    = inl IndexError /\
  (diffusion_step 1%positive 1 0 1 {[1%positive := [1; 2]%R]}).1
    = inl ZeroDivisionError.
Proof.
  split.
  - apply (diffusion_step_outcomes {[1%positive := [7%R]]} 1%positive
             [7%R] 1 1 1); [reflexivity | reflexivity | lra].
  - apply (diffusion_step_outcomes {[1%positive := [1; 2]%R]} 1%positive
             [1; 2]%R 1 0 1); [reflexivity | simpl; lia | reflexivity].
Defined.

(** X3. Outcomes of [adr_step]: an empty field raises IndexError; a
    one-entry field is copied (the read of [C[n-2]] wraps to the entry
    itself) and a two-entry field [c0; c1] gives [c0; c0], in both cases
    whatever dx; on three entries or more a zero dx raises
    ZeroDivisionError and any other dx returns a field of the same
    length. *)
Theorem adr_step_outcomes
    (h : heap) (pC : loc) (C : list R) (U D k dx dt : R) :
  h !! pC = Some C ->
  (length C = 0%nat -> (adr_step pC U D k dx dt h).1 = inl IndexError) /\
  (length C = 1%nat -> returns_array (adr_step pC U D k dx dt) h C) /\
  (length C = 2%nat ->
   returns_array (adr_step pC U D k dx dt) h [nth 0 C 0%R; nth 0 C 0%R]) /\
  ((3 <= length C)%nat -> dx = 0%R ->
   (adr_step pC U D k dx dt h).1 = inl ZeroDivisionError) /\
  ((3 <= length C)%nat -> dx <> 0%R ->
   exists C', returns_array (adr_step pC U D k dx dt) h C' /\
              length C' = length C).
Proof.
  intros HC. repeat apply conj.
  - intros H0. apply nil_length_inv in H0. subst C.
    eapply value_of_run. now apply adr_step_empty.
  - intros H1. destruct C as [|c [|c' C]]; try discriminate.
    now apply returns_fresh, (adr_step_singleton h pC c).
  - intros H2. destruct C as [|c0 [|c1 [|c2 C]]]; try discriminate.
    now apply returns_fresh, (adr_step_pair h pC c0 c1).
  - intros H3 ->. eapply value_of_run.
    now apply (adr_step_div0 h pC C).
  - intros H3 Hdx. exists (adr_array C U D k dx dt).
    split; [|apply length_adr_array].
    apply adr_step_returns; [done | lia | done].
Qed.

Lemma adr_step_outcomes_witness :
  returns_array (adr_step 1%positive 1 1 1 0 1) {[1%positive := [3; 5]%R]}
                [3; 3]%R /\
  (adr_step 1%positive 1 1 1 0 1 {[1%positive := [1; 2; 4]%R]}).1
    = inl ZeroDivisionError.
Proof.
  split.
  - apply (adr_step_outcomes {[1%positive := [3; 5]%R]} 1%positive
             [3; 5]%R 1 1 1 0 1); reflexivity.
  - apply (adr_step_outcomes {[1%positive := [1; 2; 4]%R]} 1%positive
             [1; 2; 4]%R 1 1 1 0 1); [reflexivity | simpl; lia | reflexivity].
Defined.

(** ** Bounds, fixed points and special coefficients *)

Lemma array_ext (L1 L2 : list R) :
  length L1 = length L2 ->
  (forall i, (i < length L1)%nat -> nth i L1 0%R = nth i L2 0%R) ->
  L1 = L2.
Proof. intros Hlen Hnth. now apply (nth_ext L1 L2 0%R 0%R). Qed.

Lemma Forall_tabulated (P : R -> Prop) (L : list R) :
  (forall i, (i < length L)%nat -> P (nth i L 0%R)) -> Forall P L.
Proof. intros H. now apply (Forall_nth P 0%R L). Qed.

Lemma Forall_at (P : R -> Prop) (L : list R) i :
  Forall P L -> (i < length L)%nat -> P (nth i L 0%R).
Proof. intros H Hi. now apply (Forall_nth P 0%R L). Qed.

Lemma nth_replicate_lt (n i : nat) (c : R) :
  (i < n)%nat -> nth i (replicate n c) 0%R = c.
Proof. intros Hi. apply nth_lookup_Some. now apply lookup_replicate_2. Qed.

Lemma convex2_bounds (a b c x y : R) :
  (0 <= c <= 1)%R -> (a <= x <= b)%R -> (a <= y <= b)%R ->
  (a <= (1 - c) * x + c * y <= b)%R.
Proof. intros Hc Hx Hy. split; nra. Qed.

Lemma weighted3_bounds (a b x y z p q s : R) :
  (0 <= p)%R -> (0 <= q)%R -> (0 <= s)%R -> (p + q + s)%R = 1%R ->
  (a <= x <= b)%R -> (a <= y <= b)%R -> (a <= z <= b)%R ->
  (a <= p * x + q * y + s * z <= b)%R.
Proof.
  intros Hp Hq Hs Hsum [Hx1 Hx2] [Hy1 Hy2] [Hz1 Hz2].
  pose proof (Rmult_le_pos p (x - a) Hp ltac:(lra)).
  pose proof (Rmult_le_pos q (y - a) Hq ltac:(lra)).
  pose proof (Rmult_le_pos s (z - a) Hs ltac:(lra)).
  pose proof (Rmult_le_pos p (b - x) Hp ltac:(lra)).
  pose proof (Rmult_le_pos q (b - y) Hq ltac:(lra)).
  pose proof (Rmult_le_pos s (b - z) Hs ltac:(lra)).
  split; nra.
Qed.

Lemma weighted3_sub_bounds (b x y z p q s : R) :
  (0 <= p)%R -> (0 <= q)%R -> (0 <= s)%R -> (p + q + s <= 1)%R ->
  (0 <= x <= b)%R -> (0 <= y <= b)%R -> (0 <= z <= b)%R ->
  (0 <= p * x + q * y + s * z <= b)%R.
Proof.
  intros Hp Hq Hs Hsum [Hx1 Hx2] [Hy1 Hy2] [Hz1 Hz2].
  pose proof (Rmult_le_pos p x Hp Hx1).
  pose proof (Rmult_le_pos q y Hq Hy1).
  pose proof (Rmult_le_pos s z Hs Hz1).
  pose proof (Rmult_le_pos p (b - x) Hp ltac:(lra)).
  pose proof (Rmult_le_pos q (b - y) Hq ltac:(lra)).
  pose proof (Rmult_le_pos s (b - z) Hs ltac:(lra)).
  pose proof (Rmult_le_pos (1 - (p + q + s)) b ltac:(lra) ltac:(lra)).
  split; nra.
Qed.

(** X4. Under a Courant number between 0 and 1, [advection_step] creates
    no new extremum: if every entry of the field lies in [a, b], so does
    every entry of the returned field. *)
Theorem advection_step_bounds
    (h : heap) (pC : loc) (C : list R) (U dx dt a b : R) :
  h !! pC = Some C -> (1 <= length C)%nat -> dx <> 0%R ->
  (0 <= U * (dt / dx) <= 1)%R ->
  Forall (fun v => a <= v <= b)%R C ->
  exists C',
    returns_array (advection_step pC U dx dt) h C' /\
    Forall (fun v => a <= v <= b)%R C'.
Proof.
  intros HC Hn Hdx Hc Hab. exists (advection_array C U dx dt).
  split; [now apply advection_step_returns|].
  apply Forall_tabulated. intros i Hi. rewrite length_advection_array in Hi.
  destruct i as [|i].
  - rewrite advection_array_0 by lia.
    now apply (Forall_at (fun v => a <= v <= b)%R).
  - rewrite advection_array_S, upwind_update_convex by lia.
    apply convex2_bounds; [done | |];
      apply (Forall_at (fun v => a <= v <= b)%R); [done | lia | done | lia].
Qed.

Lemma advection_step_bounds_witness :
  exists C',
    returns_array (advection_step 1%positive 1 1 (1 / 2))
                  {[1%positive := [0; 0; 1]%R]} C' /\
    Forall (fun v => 0 <= v <= 1)%R C'.
Proof.
  apply (advection_step_bounds {[1%positive := [0; 0; 1]%R]} 1%positive
           [0; 0; 1]%R 1 1 (1 / 2) 0 1).
  - reflexivity.
  - simpl. lia.
  - lra.
  - lra.
  - repeat (apply List.Forall_cons; [lra|]). apply List.Forall_nil.
Defined.

(** X5. Under a diffusion number [D*dt/dx^2] between 0 and 1/2,
    [diffusion_step] obeys the discrete maximum principle: every entry of
    the returned field lies between the bounds of the input field. *)
Theorem diffusion_step_bounds
    (h : heap) (pC : loc) (C : list R) (D dx dt a b : R) :
  h !! pC = Some C -> (2 <= length C)%nat -> dx <> 0%R ->
  (0 <= D * (dt / dx ^ 2) <= 1 / 2)%R ->
  Forall (fun v => a <= v <= b)%R C ->
  exists C',
    returns_array (diffusion_step pC D dx dt) h C' /\
    Forall (fun v => a <= v <= b)%R C'.
Proof.
  intros HC Hn Hdx Hr Hab. exists (diffusion_array C D dx dt).
  split; [now apply diffusion_step_returns|].
  assert (forall j, (j < length C)%nat -> (a <= nth j C 0 <= b)%R) as Hat
    by (intros j Hj; now apply (Forall_at (fun v => a <= v <= b)%R)).
  apply Forall_tabulated. intros i Hi. rewrite length_diffusion_array in Hi.
  set (r := (D * (dt / dx ^ 2))%R) in *.
  destruct (decide (i = 0%nat)) as [->|H0].
  - rewrite diffusion_array_first by done. fold r.
    pose proof (Hat 0%nat ltac:(lia)). pose proof (Hat 1%nat ltac:(lia)).
    split; nra.
  - destruct (decide (i = length C - 1)%nat) as [->|Hl].
    + rewrite diffusion_array_last by done. fold r.
      pose proof (Hat (length C - 1)%nat ltac:(lia)).
      pose proof (Hat (length C - 2)%nat ltac:(lia)).
      split; nra.
    + rewrite diffusion_array_interior by lia. unfold central_update.
      fold r.
      replace (nth i C 0 + r * (nth (i + 1) C 0 - 2 * nth i C 0
                                + nth (i - 1) C 0))%R
        with ((1 - 2 * r) * nth i C 0 + r * nth (i + 1) C 0
              + r * nth (i - 1) C 0)%R by ring.
      apply weighted3_bounds; try lra; apply Hat; lia.
Qed.

Lemma diffusion_step_bounds_witness :
  exists C',
    returns_array (diffusion_step 1%positive 2 1 (1 / 8))
                  {[1%positive := [0; 1; 0]%R]} C' /\
    Forall (fun v => 0 <= v <= 1)%R C'.
Proof.
  apply (diffusion_step_bounds {[1%positive := [0; 1; 0]%R]} 1%positive
           [0; 1; 0]%R 2 1 (1 / 8) 0 1).
  - reflexivity.
  - simpl. lia.
  - lra.
  - lra.
  - repeat (apply List.Forall_cons; [lra|]). apply List.Forall_nil.
Defined.

(** X6. When the Courant number c, the diffusion number r and k*dt are
    non-negative with c + 2*r + k*dt <= 1, [adr_step] keeps a field with
    entries in [0, b] within [0, b]. *)
Theorem adr_step_bounds
    (h : heap) (pC : loc) (C : list R) (U D k dx dt b : R) :
  h !! pC = Some C -> (2 <= length C)%nat -> dx <> 0%R ->
  (0 <= U * (dt / dx))%R -> (0 <= D * (dt / dx ^ 2))%R -> (0 <= k * dt)%R ->
  (U * (dt / dx) + 2 * (D * (dt / dx ^ 2)) + k * dt <= 1)%R ->
  Forall (fun v => 0 <= v <= b)%R C ->
  exists C',
    returns_array (adr_step pC U D k dx dt) h C' /\
    Forall (fun v => 0 <= v <= b)%R C'.
Proof.
  intros HC Hn Hdx Hc Hr Hk Hsum Hab. exists (adr_array C U D k dx dt).
  split; [now apply adr_step_returns|].
  assert (forall j, (j < length C)%nat -> (0 <= nth j C 0 <= b)%R) as Hat
    by (intros j Hj; now apply (Forall_at (fun v => 0 <= v <= b)%R)).
  apply Forall_tabulated. intros i Hi. rewrite length_adr_array in Hi.
  destruct (decide (i = length C - 1)%nat) as [->|Hl].
  - rewrite adr_array_last by done. apply Hat. lia.
  - destruct (decide (i = 0%nat)) as [->|H0].
    + rewrite adr_array_first by done. apply Hat. lia.
    + rewrite adr_array_interior by lia. unfold adr_update.
      set (c := (U * (dt / dx))%R) in *.
      set (r := (D * (dt / dx ^ 2))%R) in *.
      set (x := nth i C 0%R). set (y := nth (i - 1) C 0%R).
      set (z := nth (i + 1) C 0%R).
      assert (0 <= x <= b)%R as Hx by (apply Hat; lia).
      assert (0 <= y <= b)%R as Hy by (apply Hat; lia).
      assert (0 <= z <= b)%R as Hz by (apply Hat; lia).
      replace (x + - U * (dt / dx) * (x - y) + r * (z - 2 * x + y)
               + - k * dt * x)%R
        with ((1 - c - 2 * r - k * dt) * x + (c + r) * y + r * z)%R
        by (unfold c; ring).
      apply weighted3_sub_bounds; lra.
Qed.

Lemma adr_step_bounds_witness :
  exists C',
    returns_array (adr_step 1%positive 1 1 1 1 (1 / 4))
                  {[1%positive := [0; 1; 0]%R]} C' /\
    Forall (fun v => 0 <= v <= 1)%R C'.
Proof.
  apply (adr_step_bounds {[1%positive := [0; 1; 0]%R]} 1%positive
           [0; 1; 0]%R 1 1 1 1 (1 / 4) 1).
  - reflexivity.
  - simpl. lia.
  - lra.
  - lra.
  - lra.
  - lra.
  - lra.
  - repeat (apply List.Forall_cons; [lra|]). apply List.Forall_nil.
Defined.

Lemma advection_array_nth C U dx dt i :
  (i < length C)%nat ->
  nth i (advection_array C U dx dt) 0%R =
    if decide (i = 0%nat) then nth 0 C 0%R
    else upwind_update C (U * (dt / dx)) i.
Proof.
  intros Hi. destruct (decide (i = 0%nat)) as [->|H0].
  - apply advection_array_0. lia.
  - apply advection_array_S. lia.
Qed.

Lemma diffusion_array_nth C D dx dt i :
  (2 <= length C)%nat -> (i < length C)%nat ->
  nth i (diffusion_array C D dx dt) 0%R =
    if decide (i = 0%nat)
    then (nth 0 C 0 + D * (dt / dx ^ 2) * (nth 1 C 0 - nth 0 C 0))%R
    else if decide (i = length C - 1)%nat
    then (nth (length C - 1) C 0
          + D * (dt / dx ^ 2)
            * (nth (length C - 2) C 0 - nth (length C - 1) C 0))%R
    else central_update C (D * (dt / dx ^ 2)) i.
Proof.
  intros Hn Hi. destruct (decide (i = 0%nat)) as [->|H0].
  - now apply diffusion_array_first.
  - destruct (decide (i = length C - 1)%nat) as [->|Hl].
    + now apply diffusion_array_last.
    + apply diffusion_array_interior; lia.
Qed.

Lemma adr_array_nth C U D k dx dt i :
  (2 <= length C)%nat -> (i < length C)%nat ->
  nth i (adr_array C U D k dx dt) 0%R =
    if decide (i = length C - 1)%nat then nth (length C - 2) C 0%R
    else if decide (i = 0%nat) then nth 0 C 0%R
    else adr_update C U D k dx dt i.
Proof.
  intros Hn Hi. destruct (decide (i = length C - 1)%nat) as [->|Hl].
  - now apply adr_array_last.
  - destruct (decide (i = 0%nat)) as [->|H0].
    + now apply adr_array_first.
    + apply adr_array_interior; lia.
Qed.

Lemma returns_array_eq (m : M loc) (h : heap) L L' :
  returns_array m h L -> L = L' -> returns_array m h L'.
Proof. now intros H <-. Qed.

(** X7. A constant field is a steady state of the transport terms:
    [advection_step], [diffusion_step] and [adr_step] with k = 0 return it
    unchanged.  With a reaction rate k, [adr_step] multiplies the interior
    entries by [1 - k*dt] and leaves the two end entries at the old
    value. *)
Theorem constant_field_steady
    (h : heap) (pC : loc) (n : nat) (c U D k dx dt : R) :
  h !! pC = Some (replicate n c) -> (2 <= n)%nat -> dx <> 0%R ->
  returns_array (advection_step pC U dx dt) h (replicate n c) /\
  returns_array (diffusion_step pC D dx dt) h (replicate n c) /\
  returns_array (adr_step pC U D 0 dx dt) h (replicate n c) /\
  exists C',
    returns_array (adr_step pC U D k dx dt) h C' /\
    nth 0 C' 0%R = c /\ nth (n - 1) C' 0%R = c /\
    forall i, (1 <= i <= n - 2)%nat -> nth i C' 0%R = (c * (1 - k * dt))%R.
Proof.
  intros HC Hn Hdx.
  assert (length (replicate n c) = n) as Hlen by apply length_replicate.
  assert (forall i, (i < n)%nat -> nth i (replicate n c) 0%R = c) as Hc
    by (intros; now apply nth_replicate_lt).
  assert (forall k' i, (1 <= i)%nat -> (i + 1 < n)%nat ->
            adr_update (replicate n c) U D k' dx dt i
              = (c * (1 - k' * dt))%R) as Hadr.
  { intros k' i H1 H2. unfold adr_update. rewrite !Hc by lia. ring. }
  repeat apply conj.
  - eapply returns_array_eq;
      [apply (advection_step_returns h pC (replicate n c)); [done | lia | done]|].
    apply array_ext; [now rewrite length_advection_array|].
    intros i Hi. rewrite length_advection_array, Hlen in Hi.
    rewrite advection_array_nth by lia. case_decide; [subst; now rewrite Hc|].
    unfold upwind_update. rewrite !Hc by lia. ring.
  - eapply returns_array_eq;
      [apply (diffusion_step_returns h pC (replicate n c)); [done | lia | done]|].
    apply array_ext; [now rewrite length_diffusion_array|].
    intros i Hi. rewrite length_diffusion_array, Hlen in Hi.
    rewrite diffusion_array_nth, Hlen by lia. unfold central_update.
    repeat case_decide; rewrite !Hc by lia; ring.
  - eapply returns_array_eq;
      [apply (adr_step_returns h pC (replicate n c)); [done | lia | done]|].
    apply array_ext; [now rewrite length_adr_array|].
    intros i Hi. rewrite length_adr_array, Hlen in Hi.
    rewrite adr_array_nth, Hlen by lia.
    repeat case_decide; rewrite ?Hadr by lia; rewrite ?Hc by lia; ring.
  - exists (adr_array (replicate n c) U D k dx dt).
    split; [apply adr_step_returns; [done | lia | done]|].
    split; [rewrite adr_array_first by lia; apply Hc; lia|].
    split.
    + rewrite <- Hlen at 1. rewrite adr_array_last, Hlen by lia.
      apply Hc. lia.
    + intros i Hi. rewrite adr_array_interior by lia. apply Hadr; lia.
Qed.

Lemma constant_field_steady_witness :
  returns_array (advection_step 1%positive 1 1 (1 / 2))
                {[1%positive := replicate 3 2%R]} (replicate 3 2%R) /\
  returns_array (diffusion_step 1%positive 1 1 (1 / 2))
                {[1%positive := replicate 3 2%R]} (replicate 3 2%R) /\
  returns_array (adr_step 1%positive 1 1 0 1 (1 / 2))
                {[1%positive := replicate 3 2%R]} (replicate 3 2%R) /\
  exists C',
    returns_array (adr_step 1%positive 1 1 1 1 (1 / 2))
                  {[1%positive := replicate 3 2%R]} C' /\
    nth 0 C' 0%R = 2%R /\ nth (3 - 1) C' 0%R = 2%R /\
    forall i, (1 <= i <= 3 - 2)%nat ->
      nth i C' 0%R = (2 * (1 - 1 * (1 / 2)))%R.
Proof.
  apply (constant_field_steady {[1%positive := replicate 3 2%R]} 1%positive
           3 2 1 1 1 1 (1 / 2)).
  - reflexivity.
  - lia.
  - lra.
Defined.

(** X8. At Courant number one ([U*dt = dx]) [advection_step] is an exact
    shift by one cell: every entry at i >= 1 takes the old value of its
    left neighbour, and the first entry is kept. *)
Theorem advection_step_unit_courant
    (h : heap) (pC : loc) (C : list R) (U dx dt : R) :
  h !! pC = Some C -> (1 <= length C)%nat -> dx <> 0%R ->
  (U * dt)%R = dx ->
  exists C',
    returns_array (advection_step pC U dx dt) h C' /\
    length C' = length C /\
    nth 0 C' 0%R = nth 0 C 0%R /\
    forall i, (1 <= i < length C)%nat -> nth i C' 0%R = nth (i - 1) C 0%R.
Proof.
  intros HC Hn Hdx Hc. exists (advection_array C U dx dt).
  split; [now apply advection_step_returns|].
  split; [apply length_advection_array|].
  split; [now apply advection_array_0|].
  intros i Hi. rewrite advection_array_S by lia. unfold upwind_update.
  replace (U * (dt / dx))%R with (U * dt / dx)%R by (unfold Rdiv; ring).
  rewrite Hc. unfold Rdiv. rewrite Rinv_r by done. ring.
Qed.

Lemma advection_step_unit_courant_witness :
  exists C',
    returns_array (advection_step 1%positive 2 1 (1 / 2))
                  {[1%positive := [1; 2; 4]%R]} C' /\
    length C' = length [1; 2; 4]%R /\
    nth 0 C' 0%R = nth 0 [1; 2; 4]%R 0%R /\
    forall i, (1 <= i < length [1; 2; 4]%R)%nat ->
      nth i C' 0%R = nth (i - 1) [1; 2; 4]%R 0%R.
Proof.
  apply (advection_step_unit_courant {[1%positive := [1; 2; 4]%R]}
           1%positive [1; 2; 4]%R 2 1 (1 / 2)).
  - reflexivity.
  - simpl. lia.
  - lra.
  - lra.
Defined.

(** X9. With a zero coefficient the isolated steppers return a copy of the
    field ([advection_step] with U = 0, [diffusion_step] with D = 0,
    [reaction_step] with k = 0).  [adr_step] with U = D = k = 0 does not:
    it overwrites the last entry with its left neighbour, and returns the
    field unchanged exactly when the last two entries are equal. *)
Theorem zero_coefficients
    (h : heap) (pC : loc) (C : list R) (dx dt : R) :
  h !! pC = Some C -> (2 <= length C)%nat -> dx <> 0%R ->
  returns_array (advection_step pC 0 dx dt) h C /\
  returns_array (diffusion_step pC 0 dx dt) h C /\
  returns_array (reaction_step pC 0 dt) h C /\
  exists C',
    returns_array (adr_step pC 0 0 0 dx dt) h C' /\
    (forall i, (i < length C - 1)%nat -> nth i C' 0%R = nth i C 0%R) /\
    nth (length C - 1) C' 0%R = nth (length C - 2) C 0%R /\
    (C' = C <-> nth (length C - 1) C 0%R = nth (length C - 2) C 0%R).
Proof.
  intros HC Hn Hdx.
  assert (forall i, (i < length C - 1)%nat ->
            nth i (adr_array C 0 0 0 dx dt) 0%R = nth i C 0%R) as Hkeep.
  { intros i Hi. rewrite adr_array_nth by lia.
    rewrite decide_False by lia. case_decide; [now subst|].
    unfold adr_update. ring. }
  repeat apply conj.
  - eapply returns_array_eq;
      [apply (advection_step_returns h pC C); [done | lia | done]|].
    apply array_ext; [apply length_advection_array|].
    intros i Hi. rewrite length_advection_array in Hi.
    rewrite advection_array_nth by lia. case_decide; [now subst|].
    unfold upwind_update. ring.
  - eapply returns_array_eq;
      [apply (diffusion_step_returns h pC C); [done | lia | done]|].
    apply array_ext; [apply length_diffusion_array|].
    intros i Hi. rewrite length_diffusion_array in Hi.
    rewrite diffusion_array_nth by lia. unfold central_update.
    repeat case_decide; subst; ring.
  - eapply returns_array_eq; [now apply (reaction_step_returns h pC C)|].
    unfold reaction_array. rewrite <- (map_id C) at 2.
    apply map_ext. intros c.
    replace (- 0 * dt)%R with 0%R by ring. rewrite exp_0. ring.
  - exists (adr_array C 0 0 0 dx dt).
    split; [apply adr_step_returns; [done | lia | done]|].
    split; [exact Hkeep|].
    split; [now apply adr_array_last|].
    split.
    + intros E.
      rewrite <- (adr_array_last C 0 0 0 dx dt) by done. now rewrite E.
    + intros E. apply array_ext; [apply length_adr_array|].
      intros i Hi. rewrite length_adr_array in Hi.
      destruct (decide (i = length C - 1)%nat) as [->|Hl].
      * rewrite adr_array_last by done. now rewrite E.
      * apply Hkeep. lia.
Qed.

Lemma zero_coefficients_witness :
  returns_array (advection_step 1%positive 0 1 1)
                {[1%positive := [1; 2; 4]%R]} [1; 2; 4]%R /\
  returns_array (diffusion_step 1%positive 0 1 1)
                {[1%positive := [1; 2; 4]%R]} [1; 2; 4]%R /\
  returns_array (reaction_step 1%positive 0 1)
                {[1%positive := [1; 2; 4]%R]} [1; 2; 4]%R /\
  exists C',
    returns_array (adr_step 1%positive 0 0 0 1 1)
                  {[1%positive := [1; 2; 4]%R]} C' /\
    (forall i, (i < length [1; 2; 4]%R - 1)%nat ->
       nth i C' 0%R = nth i [1; 2; 4]%R 0%R) /\
    nth (length [1; 2; 4]%R - 1) C' 0%R
      = nth (length [1; 2; 4]%R - 2) [1; 2; 4]%R 0%R /\
    (C' = [1; 2; 4]%R <->
       nth (length [1; 2; 4]%R - 1) [1; 2; 4]%R 0%R
         = nth (length [1; 2; 4]%R - 2) [1; 2; 4]%R 0%R).
Proof.
  apply (zero_coefficients {[1%positive := [1; 2; 4]%R]} 1%positive
           [1; 2; 4]%R 1 1).
  - reflexivity.
  - simpl. lia.
  - lra.
Defined.

(** ** Linearity and symmetry *)

Section Superposition.
Variables (a b : R) (C1 C2 C3 : list R).
Hypothesis Hcomb : combination a b C1 C2 C3.

Lemma combination_at i :
  (i < length C1)%nat -> nth i C3 0%R = (a * nth i C1 0 + b * nth i C2 0)%R.
Proof. destruct Hcomb as (_ & _ & H). apply H. Qed.

Lemma combination_length2 : length C2 = length C1.
Proof. apply Hcomb. Qed.

Lemma combination_length3 : length C3 = length C1.
Proof. apply Hcomb. Qed.

Lemma advection_array_combination U dx dt :
  combination a b (advection_array C1 U dx dt) (advection_array C2 U dx dt)
              (advection_array C3 U dx dt).
Proof.
  pose proof combination_length2 as H2. pose proof combination_length3 as H3.
  unfold combination. rewrite !length_advection_array.
  split; [done|]. split; [done|]. intros i Hi.
  rewrite !advection_array_nth by lia.
  case_decide; [apply combination_at; lia|].
  unfold upwind_update. rewrite !combination_at by lia. ring.
Qed.

Lemma diffusion_array_combination D dx dt :
  (2 <= length C1)%nat ->
  combination a b (diffusion_array C1 D dx dt) (diffusion_array C2 D dx dt)
              (diffusion_array C3 D dx dt).
Proof.
  intros Hn.
  pose proof combination_length2 as H2. pose proof combination_length3 as H3.
  unfold combination. rewrite !length_diffusion_array.
  split; [done|]. split; [done|]. intros i Hi.
  rewrite !diffusion_array_nth by lia. rewrite H2, H3.
  unfold central_update.
  repeat case_decide; rewrite !combination_at by lia; ring.
Qed.

Lemma adr_array_combination U D k dx dt :
  (2 <= length C1)%nat ->
  combination a b (adr_array C1 U D k dx dt) (adr_array C2 U D k dx dt)
              (adr_array C3 U D k dx dt).
Proof.
  intros Hn.
  pose proof combination_length2 as H2. pose proof combination_length3 as H3.
  unfold combination. rewrite !length_adr_array.
  split; [done|]. split; [done|]. intros i Hi.
  rewrite !adr_array_nth by lia. rewrite H2, H3.
  unfold adr_update.
  repeat case_decide; rewrite !combination_at by lia; ring.
Qed.

Lemma reaction_array_combination k dt :
  combination a b (reaction_array C1 k dt) (reaction_array C2 k dt)
              (reaction_array C3 k dt).
Proof.
  pose proof combination_length2 as H2. pose proof combination_length3 as H3.
  unfold combination. rewrite !length_reaction_array.
  split; [done|]. split; [done|]. intros i Hi.
  rewrite !reaction_array_nth, combination_at by lia. ring.
Qed.

End Superposition.

Lemma superposes_intro (step : loc -> M loc) h p1 p2 p3 a b A1 A2 A3 :
  returns_array (step p1) h A1 -> returns_array (step p2) h A2 ->
  returns_array (step p3) h A3 -> combination a b A1 A2 A3 ->
  superposes step h p1 p2 p3 a b.
Proof. intros. exists A1, A2, A3. repeat split; try done; apply H2. Qed.

(** X10. The four steppers are linear in the field: if the field at [p3]
    is the combination [a*C1 + b*C2] of the fields at [p1] and [p2], the
    returned fields are in the same combination. *)
Theorem steppers_linear
    (h : heap) (p1 p2 p3 : loc) (C1 C2 C3 : list R) (a b U D k dx dt : R) :
  h !! p1 = Some C1 -> h !! p2 = Some C2 -> h !! p3 = Some C3 ->
  combination a b C1 C2 C3 -> (2 <= length C1)%nat -> dx <> 0%R ->
  superposes (fun p => advection_step p U dx dt) h p1 p2 p3 a b /\
  superposes (fun p => diffusion_step p D dx dt) h p1 p2 p3 a b /\
  superposes (fun p => reaction_step p k dt) h p1 p2 p3 a b /\
  superposes (fun p => adr_step p U D k dx dt) h p1 p2 p3 a b.
Proof.
  intros H1 H2 H3 Hcomb Hn Hdx.
  pose proof (combination_length2 a b C1 C2 C3 Hcomb) as L2.
  pose proof (combination_length3 a b C1 C2 C3 Hcomb) as L3.
  split; [|split; [|split]].
  - eapply superposes_intro;
      [apply (advection_step_returns h p1 C1); [done | lia | done]
      |apply (advection_step_returns h p2 C2); [done | lia | done]
      |apply (advection_step_returns h p3 C3); [done | lia | done]
      |now apply advection_array_combination].
  - eapply superposes_intro;
      [apply (diffusion_step_returns h p1 C1); [done | lia | done]
      |apply (diffusion_step_returns h p2 C2); [done | lia | done]
      |apply (diffusion_step_returns h p3 C3); [done | lia | done]
      |now apply diffusion_array_combination].
  - eapply superposes_intro;
      [now apply (reaction_step_returns h p1 C1)
      |now apply (reaction_step_returns h p2 C2)
      |now apply (reaction_step_returns h p3 C3)
      |now apply reaction_array_combination].
  - eapply superposes_intro;
      [apply (adr_step_returns h p1 C1); [done | lia | done]
      |apply (adr_step_returns h p2 C2); [done | lia | done]
      |apply (adr_step_returns h p3 C3); [done | lia | done]
      |now apply adr_array_combination].
Qed.

Lemma steppers_linear_witness :
  let h : heap :=
    <[3%positive := [2; 3; 0]%R]>
      (<[2%positive := [0; 1; 0]%R]> {[1%positive := [1; 0; 0]%R]}) in
  superposes (fun p => advection_step p 1 1 (1 / 4)) h 1 2 3 2 3 /\
  superposes (fun p => diffusion_step p 1 1 (1 / 4)) h 1 2 3 2 3 /\
  superposes (fun p => reaction_step p 1 (1 / 4)) h 1 2 3 2 3 /\
  superposes (fun p => adr_step p 1 1 1 1 (1 / 4)) h 1 2 3 2 3.
Proof.
  intros h.
  apply (steppers_linear h 1 2 3 [1; 0; 0]%R [0; 1; 0]%R [2; 3; 0]%R
           2 3 1 1 1 1 (1 / 4)).
  - reflexivity.
  - reflexivity.
  - reflexivity.
  - split; [reflexivity|]. split; [reflexivity|].
    intros [|[|[|i]]] Hi; simpl in *; try lra; lia.
  - simpl. lia.
  - lra.
Defined.

Lemma diffusion_array_rev C D dx dt :
  (2 <= length C)%nat ->
  diffusion_array (rev C) D dx dt = rev (diffusion_array C D dx dt).
Proof.
  intros Hn.
  assert (length (rev C) = length C) as Hrev by apply length_rev.
  assert (forall j, (j < length C)%nat ->
            nth j (rev C) 0%R = nth (length C - S j) C 0%R) as Hnth
    by (intros j Hj; now apply rev_nth).
  apply array_ext.
  { now rewrite length_rev, !length_diffusion_array. }
  intros i Hi. rewrite length_diffusion_array, Hrev in Hi.
  rewrite rev_nth by (now rewrite length_diffusion_array).
  rewrite length_diffusion_array.
  rewrite !diffusion_array_nth by lia. rewrite Hrev.
  unfold central_update.
  destruct (decide (i = 0%nat)) as [->|H0].
  - rewrite (decide_False (P := (length C - 1 = 0)%nat)) by lia.
    rewrite (decide_True (P := (length C - 1 = length C - 1)%nat)) by lia.
    rewrite !Hnth by lia.
    replace (length C - 1 - 0)%nat with (length C - 1)%nat by lia.
    replace (length C - 2 - 0)%nat with (length C - 2)%nat by lia.
    reflexivity.
  - destruct (decide (i = length C - 1)%nat) as [->|Hl].
    + replace (length C - S (length C - 1))%nat with 0%nat by lia.
      rewrite decide_True by done.
      rewrite !Hnth by lia.
      replace (length C - S (length C - 1))%nat with 0%nat by lia.
      replace (length C - S (length C - 2))%nat with 1%nat by lia.
      reflexivity.
    + rewrite !decide_False by lia. rewrite !Hnth by lia.
      replace (length C - S (i + 1))%nat with (length C - S i - 1)%nat by lia.
      replace (length C - S (i - 1))%nat with (length C - S i + 1)%nat by lia.
      ring.
Qed.

(** X11. [diffusion_step] commutes with reversing the field: on the
    mirrored field it returns the mirror image of what it returns on the
    field. *)
Theorem diffusion_step_mirror
    (h : heap) (p1 p2 : loc) (C : list R) (D dx dt : R) :
  h !! p1 = Some C -> h !! p2 = Some (rev C) ->
  (2 <= length C)%nat -> dx <> 0%R ->
  exists A,
    returns_array (diffusion_step p1 D dx dt) h A /\
    returns_array (diffusion_step p2 D dx dt) h (rev A).
Proof.
  intros H1 H2 Hn Hdx. exists (diffusion_array C D dx dt).
  split; [now apply diffusion_step_returns|].
  rewrite <- diffusion_array_rev by done.
  apply diffusion_step_returns; [done | now rewrite length_rev | done].
Qed.

Lemma diffusion_step_mirror_witness :
  let h : heap :=
    <[2%positive := rev [1; 2; 4]%R]> {[1%positive := [1; 2; 4]%R]} in
  exists A,
    returns_array (diffusion_step 1%positive 1 1 (1 / 4)) h A /\
    returns_array (diffusion_step 2%positive 1 1 (1 / 4)) h (rev A).
Proof.
  intros h.
  apply (diffusion_step_mirror h 1 2 [1; 2; 4]%R 1 1 (1 / 4)).
  - reflexivity.
  - reflexivity.
  - simpl. lia.
  - lra.
Defined.

(** ** The reaction stepper: mass and composition *)

Lemma total_map_scale (C : list R) (s : R) :
  total (map (fun c => c * s)%R C) = (total C * s)%R.
Proof.
  induction C as [|c C IH]; simpl; [ring|]. rewrite IH. ring.
Qed.

(** X12. [reaction_step] multiplies the total mass by [exp (-k*dt)]; for
    k*dt > 0 and a positive total the mass strictly decreases. *)
Theorem reaction_step_mass
    (h : heap) (pC : loc) (C : list R) (k dx dt : R) :
  h !! pC = Some C ->
  exists C',
    returns_array (reaction_step pC k dt) h C' /\
    total C' = (total C * exp (- k * dt))%R /\
    mass dx C' = (mass dx C * exp (- k * dt))%R /\
    ((0 < k * dt)%R -> (0 < total C)%R -> (total C' < total C)%R).
Proof.
  intros HC. exists (reaction_array C k dt).
  split; [now apply reaction_step_returns|].
  assert (total (reaction_array C k dt) = (total C * exp (- k * dt))%R) as E
    by apply total_map_scale.
  split; [exact E|]. split; [unfold mass; rewrite E; ring|].
  intros Hk Hpos. rewrite E.
  assert (exp (- k * dt) < 1)%R as Hlt.
  { rewrite <- exp_0. apply exp_increasing. lra. }
  pose proof (exp_pos (- k * dt)). nra.
Qed.

Lemma reaction_step_mass_witness :
  exists C',
    returns_array (reaction_step 1%positive 1 (1 / 2))
                  {[1%positive := [1; 2; 4]%R]} C' /\
    total C' = (total [1; 2; 4] * exp (- 1 * (1 / 2)))%R /\
    mass 1 C' = (mass 1 [1; 2; 4] * exp (- 1 * (1 / 2)))%R /\
    ((0 < 1 * (1 / 2))%R -> (0 < total [1; 2; 4])%R ->
     (total C' < total [1; 2; 4])%R).
Proof.
  apply (reaction_step_mass {[1%positive := [1; 2; 4]%R]} 1%positive
           [1; 2; 4]%R 1 1 (1 / 2)).
  reflexivity.
Defined.

(** X13. Two reaction steps of lengths dt1 and dt2 return the same field
    as one step of length dt1 + dt2. *)
Theorem reaction_step_compose
    (h : heap) (pC : loc) (C : list R) (k dt1 dt2 : R) :
  h !! pC = Some C ->
  exists C',
    returns_array
      (let* C1 := reaction_step pC k dt1 in reaction_step C1 k dt2) h C' /\
    returns_array (reaction_step pC k (dt1 + dt2)) h C'.
Proof.
  intros HC. exists (reaction_array C k (dt1 + dt2)).
  split; [|now apply reaction_step_returns].
  eapply returns_array_bind; [now apply (reaction_step_ok h pC C)|].
  eapply returns_array_eq.
  - apply reaction_step_returns, lookup_insert_eq.
  - unfold reaction_array. rewrite map_map. apply map_ext. intros c.
    replace (- k * (dt1 + dt2))%R with (- k * dt1 + - k * dt2)%R by ring.
    rewrite exp_plus. ring.
Qed.

Lemma reaction_step_compose_witness :
  exists C',
    returns_array
      (let* C1 := reaction_step 1%positive 1 1 in reaction_step C1 1 2)
      {[1%positive := [1; 2; 4]%R]} C' /\
    returns_array (reaction_step 1%positive 1 (1 + 2))
                  {[1%positive := [1; 2; 4]%R]} C'.
Proof.
  apply (reaction_step_compose {[1%positive := [1; 2; 4]%R]} 1%positive
           [1; 2; 4]%R 1 1 2).
  reflexivity.
Defined.

(** ** The time loop of the drivers *)

Lemma copy_ok (h : heap) p l :
  h !! p = Some l ->
  copy p h = (inr (fresh (dom h)), <[fresh (dom h) := l]> h).
Proof.
  intros E. unfold copy. erewrite bind_inr by (by apply load_ok). reflexivity.
Qed.

Lemma int_mod_ok (h : heap) a b :
  b <> 0%Z -> int_mod a b h = (inr (a mod b)%Z, h).
Proof. intros Hb. unfold int_mod. now rewrite decide_False. Qed.

Lemma int_mod_zero (h : heap) a : int_mod a 0 h = (inl ZeroDivisionError, h).
Proof. unfold int_mod. now rewrite decide_True. Qed.

Lemma insert_fresh_keeps (h : heap) (l : loc) (L : list R) :
  is_Some (h !! l) -> <[fresh (dom h) := L]> h !! l = h !! l.
Proof.
  intros Hl. apply lookup_insert_ne. intros E. rewrite <- E in Hl.
  rewrite fresh_loc_not_in in Hl. now destruct Hl.
Qed.

Lemma iter_shift (F : list R -> list R) (n : nat) (V : list R) :
  Nat.iter n F (F V) = Nat.iter (S n) F V.
Proof. induction n as [|n IH]; [done|]. simpl in *. now rewrite IH. Qed.
Lemma simulate_loop_keep (step : loc -> M loc) every nt dt t ts C results
    times (h h1 h2 : heap) pN pS :
  step C h = (inr pN, h1) -> every <> 0%Z ->
  (t mod every = 0 \/ t = nt)%Z ->
  copy pN h1 = (inr pS, h2) ->
  simulate_loop step every nt dt (t :: ts) C results times h =
    simulate_loop step every nt dt ts pN (results ++ [pS])
                  (times ++ [(IZR t * dt)%R]) h2.
Proof.
  intros Es He Hk Ec. cbn [simulate_loop].
  erewrite bind_inr by exact Es.
  erewrite bind_inr by (now apply int_mod_ok).
  rewrite decide_True by exact Hk.
  now erewrite bind_inr by exact Ec.
Qed.

Lemma simulate_loop_skip (step : loc -> M loc) every nt dt t ts C results
    times (h h1 : heap) pN :
  step C h = (inr pN, h1) -> every <> 0%Z ->
  ~ (t mod every = 0 \/ t = nt)%Z ->
  simulate_loop step every nt dt (t :: ts) C results times h =
    simulate_loop step every nt dt ts pN results times h1.
Proof.
  intros Es He Hk. cbn [simulate_loop].
  erewrite bind_inr by exact Es.
  erewrite bind_inr by (now apply int_mod_ok).
  now rewrite decide_False by exact Hk.
Qed.

Section Loop.
Variables (step : loc -> M loc) (P : list R -> Prop) (F : list R -> list R).
Hypothesis Hstep : functional_step step P F.
Variables (every nt : Z) (dt : R).
Hypothesis Hevery : every <> 0%Z.

Lemma simulate_loop_spec (k : nat) :
  forall (t0 : Z) (h : heap) (C : loc) (V : list R) results times,
    h !! C = Some V -> P V ->
    exists rs (h' : heap),
      simulate_loop step every nt dt (seqZ t0 (Z.of_nat k)) C results times h
        = (inr (results ++ rs,
                times ++ map (fun t => IZR t * dt)%R
                             (filter (fun t => t mod every = 0 \/ t = nt)%Z
                                     (seqZ t0 (Z.of_nat k)))), h') /\
      (forall l, is_Some (h !! l) -> h' !! l = h !! l) /\
      Forall2 (fun p t =>
                 (t0 <= t)%Z /\
                 h' !! p = Some (Nat.iter (Z.to_nat (t - t0 + 1)) F V))
              rs (filter (fun t => t mod every = 0 \/ t = nt)%Z
                         (seqZ t0 (Z.of_nat k))) /\
      Forall (fun p => h !! p = None) rs /\
      NoDup rs.
Proof.
  destruct Hstep as [HP Hrun].
  induction k as [|k IH]; intros t0 h C V results times HC HV.
  - exists [], h. simpl. rewrite !app_nil_r.
    split; [done|]. split; [done|]. split; [constructor|].
    split; constructor.
  - rewrite seqZ_cons by lia.
    replace (Z.pred (Z.of_nat (S k))) with (Z.of_nat k) by lia.
    set (pN := fresh (dom h)). set (h1 := <[pN := F V]> h).
    assert (h1 !! pN = Some (F V)) as HN by apply lookup_insert_eq.
    assert (forall l, is_Some (h !! l) -> h1 !! l = h !! l) as Hh1
      by (intros l Hl; now apply insert_fresh_keeps).
    assert (forall l, h1 !! l = None -> h !! l = None) as Hn1.
    { intros l Hl. destruct (h !! l) eqn:E; [|done].
      rewrite Hh1 in Hl by (now rewrite E). congruence. }
    assert (step C h = (inr pN, h1)) as Es by (now apply Hrun).
    destruct (decide (t0 `mod` every = 0 \/ t0 = nt)%Z) as [Hk|Hk].
    + rewrite filter_cons_True by exact Hk.
      set (pS := fresh (dom h1)). set (h2 := <[pS := F V]> h1).
      assert (copy pN h1 = (inr pS, h2)) as Ec by (apply copy_ok, HN).
      assert (h1 !! pS = None) as HS1 by apply fresh_loc_not_in.
      assert (h2 !! pS = Some (F V)) as HS2 by apply lookup_insert_eq.
      assert (forall l, is_Some (h1 !! l) -> h2 !! l = h1 !! l) as Hh2
        by (intros l Hl; now apply insert_fresh_keeps).
      assert (forall l, h2 !! l = None -> h1 !! l = None) as Hn2.
      { intros l Hl. destruct (h1 !! l) eqn:E; [|done].
        rewrite Hh2 in Hl by (now rewrite E). congruence. }
      assert (h2 !! pN = Some (F V)) as HN2
        by (rewrite Hh2; [done | now rewrite HN]).
      destruct (IH (Z.succ t0) h2 pN (F V) (results ++ [pS])
                   (times ++ [(IZR t0 * dt)%R]) HN2 (HP _ HV))
        as (rs & h' & Erun & Hframe & Hcont & Hnone & Hnd).
      exists (pS :: rs), h'. split.
      { rewrite (simulate_loop_keep _ _ _ _ _ _ _ _ _ _ _ _ _ _ Es Hevery Hk Ec).
        rewrite Erun. cbn [map]. now rewrite <- !app_assoc. }
      split.
      { intros l Hl. rewrite Hframe, Hh2, Hh1; try done.
        - now rewrite Hh1.
        - rewrite Hh2, Hh1; try done. now rewrite Hh1. }
      split.
      { constructor.
        - split; [lia|]. rewrite Hframe by (now rewrite HS2). rewrite HS2.
          now replace (Z.to_nat (t0 - t0 + 1)) with 1%nat by lia.
        - eapply Forall2_impl; [exact Hcont|]. intros p t [Ht Hp].
          split; [lia|]. rewrite Hp, iter_shift. do 2 f_equal. lia. }
      split.
      { constructor; [now apply Hn1|].
        eapply Forall_impl; [exact Hnone|]. intros p Hp. cbn in Hp.
        now apply Hn1, Hn2. }
      constructor; [|done].
      intros Hin. rewrite Forall_forall in Hnone.
      specialize (Hnone _ Hin). congruence.
    + rewrite filter_cons_False by exact Hk.
      destruct (IH (Z.succ t0) h1 pN (F V) results times HN (HP _ HV))
        as (rs & h' & Erun & Hframe & Hcont & Hnone & Hnd).
      exists rs, h'. split.
      { now rewrite (simulate_loop_skip _ _ _ _ _ _ _ _ _ _ _ _ Es Hevery Hk). }
      split.
      { intros l Hl. rewrite Hframe, Hh1; try done. now rewrite Hh1. }
      split.
      { eapply Forall2_impl; [exact Hcont|]. intros p t [Ht Hp].
        split; [lia|]. rewrite Hp, iter_shift. do 2 f_equal. lia. }
      split; [|done].
      eapply Forall_impl; [exact Hnone|]. intros p Hp. now apply Hn1.
Qed.

Lemma simulate_spec (h : heap) (C_initial : loc) (C0 : list R) :
  h !! C_initial = Some C0 -> P C0 -> (0 <= nt)%Z ->
  exists results (h' : heap),
    simulate step every nt dt C_initial h
      = (inr (results,
              0%R :: map (fun t => IZR t * dt)%R (recorded every nt)), h') /\
    (forall l, is_Some (h !! l) -> h' !! l = h !! l) /\
    Forall2 (fun p t =>
               (0 <= t)%Z /\ h' !! p = Some (Nat.iter (Z.to_nat t) F C0))
            results (0%Z :: recorded every nt) /\
    Forall (fun p => h !! p = None) results /\
    NoDup results.
Proof.
  intros HC HP0 Hnt. unfold simulate, recorded, range.
  replace (nt + 1 - 1)%Z with nt by lia.
  assert (Z.of_nat (Z.to_nat nt) = nt) as Ent by lia.
  set (p0 := fresh (dom h)). set (h1 := <[p0 := C0]> h).
  assert (h1 !! p0 = Some C0) as H10 by apply lookup_insert_eq.
  assert (forall l, is_Some (h !! l) -> h1 !! l = h !! l) as Hh1
    by (intros l Hl; now apply insert_fresh_keeps).
  assert (h1 !! C_initial = Some C0) as HC1
    by (rewrite Hh1; [done | now rewrite HC]).
  set (pC := fresh (dom h1)). set (h2 := <[pC := C0]> h1).
  assert (forall l, is_Some (h1 !! l) -> h2 !! l = h1 !! l) as Hh2
    by (intros l Hl; now apply insert_fresh_keeps).
  assert (h2 !! pC = Some C0) as H2C by apply lookup_insert_eq.
  assert (h2 !! p0 = Some C0) as H20
    by (rewrite Hh2; [done | now rewrite H10]).
  assert (forall l, h2 !! l = None -> h !! l = None) as Hnone2.
  { intros l Hl. destruct (h !! l) eqn:E; [|done].
    rewrite Hh2, Hh1 in Hl; rewrite ?Hh1; rewrite ?E; try done. congruence. }
  destruct (simulate_loop_spec (Z.to_nat nt) 1 h2 pC C0 [p0] [0%R] H2C HP0)
    as (rs & h' & Erun & Hframe & Hcont & Hnone & Hnd).
  rewrite Ent in Erun, Hcont.
  exists (p0 :: rs), h'. split.
  { erewrite bind_inr by (apply (copy_ok h C_initial C0 HC)).
    erewrite bind_inr by (apply (copy_ok h1 C_initial C0 HC1)).
    exact Erun. }
  split.
  { intros l Hl. rewrite Hframe, Hh2, Hh1; try done.
    - now rewrite Hh1.
    - rewrite Hh2, Hh1; try done. now rewrite Hh1. }
  split.
  { constructor.
    - split; [lia|]. rewrite Hframe by (now rewrite H20). exact H20.
    - eapply Forall2_impl; [exact Hcont|]. intros p t [Ht Hp].
      split; [lia|]. rewrite Hp. do 2 f_equal. lia. }
  split.
  { constructor; [apply fresh_loc_not_in|].
    eapply Forall_impl; [exact Hnone|]. intros p Hp. now apply Hnone2. }
  constructor; [|done].
  intros Hin. rewrite Forall_forall in Hnone.
  specialize (Hnone _ Hin). congruence.
Qed.

End Loop.

(** ** The recorded steps *)

Lemma div_step (e m : Z) :
  (0 < e)%Z -> (1 <= m)%Z ->
  (m / e = (m - 1) / e + (if decide (m mod e = 0) then 1 else 0))%Z.
Proof.
  intros He Hm.
  pose proof (Z.div_mod (m - 1) e ltac:(lia)) as Hdm.
  pose proof (Z.mod_pos_bound (m - 1) e He) as Hb.
  set (q := ((m - 1) / e)%Z) in *. set (r := ((m - 1) mod e)%Z) in *.
  destruct (decide (r = e - 1)%Z) as [Hr|Hr].
  - assert (m = e * (q + 1) + 0)%Z as Em by lia.
    rewrite decide_True
      by (symmetry; apply (Z.mod_unique m e (q + 1) 0); [left; lia | exact Em]).
    symmetry. apply (Z.div_unique m e (q + 1) 0); [left; lia | exact Em].
  - assert (m = e * q + (r + 1))%Z as Em by lia.
    assert (m mod e = r + 1)%Z as Emod
      by (symmetry; apply (Z.mod_unique m e q (r + 1)); [left; lia | exact Em]).
    rewrite decide_False by lia.
    rewrite Z.add_0_r.
    symmetry. apply (Z.div_unique m e q (r + 1)); [left; lia | exact Em].
Qed.

Lemma multiples_count (e : Z) (n : nat) :
  (0 < e)%Z ->
  Z.of_nat (length (filter (fun t => t mod e = 0)%Z (seqZ 1 (Z.of_nat n))))
    = (Z.of_nat n / e)%Z.
Proof.
  intros He. induction n as [|n IH]; [done|].
  rewrite seqZ_S, filter_app, length_app, Nat2Z.inj_add, IH.
  rewrite (div_step e (Z.of_nat (S n))) by lia.
  replace (Z.of_nat (S n) - 1)%Z with (Z.of_nat n) by lia.
  replace (1 + Z.of_nat n)%Z with (Z.of_nat (S n)) by lia.
  case_decide.
  - now rewrite filter_cons_True, filter_nil by done.
  - now rewrite filter_cons_False, filter_nil by done.
Qed.

Lemma filter_agree (P1 P2 : Z -> Prop)
    `{!forall x, Decision (P1 x)} `{!forall x, Decision (P2 x)} (l : list Z) :
  Forall (fun x => P1 x <-> P2 x) l -> filter P1 l = filter P2 l.
Proof.
  induction 1 as [|x l Hx Hl IH]; [done|].
  destruct (decide (P1 x)) as [H1|H1].
  - rewrite !filter_cons_True by tauto. now rewrite IH.
  - rewrite !filter_cons_False by tauto. exact IH.
Qed.

Lemma recorded_snoc (every nt : Z) :
  (1 <= nt)%Z ->
  recorded every nt =
    filter (fun t => t mod every = 0)%Z (seqZ 1 (nt - 1)) ++ [nt].
Proof.
  intros Hnt. unfold recorded.
  pose proof (seqZ_S 1 (Z.to_nat (nt - 1))) as E.
  replace (Z.of_nat (S (Z.to_nat (nt - 1)))) with nt in E by lia.
  replace (Z.of_nat (Z.to_nat (nt - 1))) with (nt - 1)%Z in E by lia.
  replace (1 + (nt - 1))%Z with nt in E by lia.
  rewrite E, filter_app.
  rewrite (filter_cons_True _ nt) by (now right). rewrite filter_nil.
  f_equal. apply filter_agree. apply Forall_forall.
  intros t Ht. apply elem_of_seqZ in Ht. split; [|now left].
  intros [H|H]; [done | lia].
Qed.

Lemma recorded_count (every nt : Z) :
  (0 < every)%Z -> (0 <= nt)%Z ->
  Z.of_nat (length (recorded every nt)) =
    (nt / every + (if decide (nt mod every = 0) then 0 else 1))%Z.
Proof.
  intros He Hnt. destruct (decide (nt = 0%Z)) as [->|H0].
  - unfold recorded. rewrite seqZ_nil by lia.
    rewrite Zdiv_0_l, Zmod_0_l. now rewrite decide_True.
  - rewrite recorded_snoc, length_app, Nat2Z.inj_add by lia.
    replace (nt - 1)%Z with (Z.of_nat (Z.to_nat (nt - 1))) at 1 by lia.
    rewrite multiples_count by done.
    replace (Z.of_nat (Z.to_nat (nt - 1))) with (nt - 1)%Z by lia.
    rewrite (div_step every nt) by lia. simpl. case_decide; lia.
Qed.

Lemma recorded_last (every nt : Z) :
  (1 <= nt)%Z -> last (recorded every nt) = Some nt.
Proof. intros Hnt. rewrite recorded_snoc by done. apply last_snoc. Qed.

(** ** The drivers *)

Lemma advection_array_within C U dx dt a b :
  (0 <= U * (dt / dx) <= 1)%R ->
  Forall (fun v => a <= v <= b)%R C ->
  Forall (fun v => a <= v <= b)%R (advection_array C U dx dt).
Proof.
  intros Hc Hab.
  apply Forall_tabulated. intros i Hi. rewrite length_advection_array in Hi.
  rewrite advection_array_nth by lia. case_decide.
  - apply (Forall_at (fun v => a <= v <= b)%R); [done | lia].
  - rewrite upwind_update_convex.
    apply convex2_bounds; [done | |];
      apply (Forall_at (fun v => a <= v <= b)%R); [done | lia | done | lia].
Qed.

Lemma iter_invariant (Q : list R -> Prop) (F : list R -> list R) n C0 :
  (forall C, Q C -> Q (F C)) -> Q C0 -> Q (Nat.iter n F C0).
Proof. intros HF H0. induction n as [|n IH]; [done|]. simpl. now apply HF. Qed.

Lemma advection_functional U dx dt :
  dx <> 0%R ->
  functional_step (fun p => advection_step p U dx dt)
                  (fun C => (1 <= length C)%nat)
                  (fun C => advection_array C U dx dt).
Proof.
  intros Hdx. split.
  - intros C HC. now rewrite length_advection_array.
  - intros h p C HC Hn. now apply advection_step_ok.
Qed.

Lemma diffusion_functional D dx dt :
  dx <> 0%R ->
  functional_step (fun p => diffusion_step p D dx dt)
                  (fun C => (2 <= length C)%nat)
                  (fun C => diffusion_array C D dx dt).
Proof.
  intros Hdx. split.
  - intros C HC. now rewrite length_diffusion_array.
  - intros h p C HC Hn. now apply diffusion_step_ok.
Qed.

Lemma adr_functional U D k dx dt :
  dx <> 0%R ->
  functional_step (fun p => adr_step p U D k dx dt)
                  (fun C => (2 <= length C)%nat)
                  (fun C => adr_array C U D k dx dt).
Proof.
  intros Hdx. split.
  - intros C HC. now rewrite length_adr_array.
  - intros h p C HC Hn. now apply adr_step_ok.
Qed.

Lemma reaction_functional k dt :
  functional_step (fun p => reaction_step p k dt) (fun _ => True)
                  (fun C => reaction_array C k dt).
Proof.
  split; [done|]. intros h p C HC _. now apply reaction_step_ok.
Qed.

Lemma time_loop_functional (step : loc -> M loc) P F (n : nat)
    (h : heap) p C0 :
  functional_step step P F -> h !! p = Some C0 -> P C0 ->
  returns_array (time_loop step n p) h (Nat.iter n F C0).
Proof.
  intros [HP Hstep]. revert h p C0.
  induction n as [|n IH]; intros h p C0 HC H0.
  - exists p, h. split; [reflexivity | exact HC].
  - cbn [time_loop]. rewrite <- iter_shift.
    destruct (IH (<[fresh (dom h) := F C0]> h) (fresh (dom h)) (F C0))
      as (q & h' & Erun & Hq); [apply lookup_insert_eq | now apply HP |].
    exists q, h'. split; [|exact Hq].
    now rewrite (bind_inr _ _ _ _ _ (Hstep h p C0 HC H0)).
Qed.

Lemma snapshot_log_intro (step : loc -> M loc) P F every nt dt
    (h : heap) C_initial C0 :
  functional_step step P F -> (0 < every)%Z -> (0 <= nt)%Z ->
  h !! C_initial = Some C0 -> P C0 ->
  snapshot_log step (simulate step every nt dt C_initial) h C_initial
               every nt dt.
Proof.
  intros Hstep He Hnt HC HP.
  destruct (simulate_spec step P F Hstep every nt dt ltac:(lia) h C_initial
              C0 HC HP Hnt) as (results & h' & Erun & Hframe & Hcont & Hnone & Hnd).
  exists results, (0%R :: map (fun t => IZR t * dt)%R (recorded every nt)), h'.
  split; [exact Erun|].
  split.
  { apply Forall2_length in Hcont. rewrite Hcont. simpl.
    now rewrite length_map. }
  split; [done|].
  split.
  { cbn [length]. rewrite length_map, Nat2Z.inj_succ, recorded_count by done.
    lia. }
  split.
  { intros H1. rewrite recorded_snoc by done.
    rewrite map_app. cbn [map].
    rewrite app_comm_cons. apply last_snoc. }
  split; [done|]. split; [done|]. split; [|done].
  eapply Forall2_impl; [exact Hcont|]. intros p t [_ Hp].
  exists (Nat.iter (Z.to_nat t) F C0). split; [exact Hp|].
  now apply (time_loop_functional step P F).
Qed.

(** X14. The four drivers keep one snapshot before the loop, one after
    every [every]-th step (10, 40, 20 and 100 steps) and one after the last
    step.  The recorded times are 0 and [t*dt] for those steps, the last
    one being [nt*dt]; there are [1 + nt/every] of them, plus one when
    [every] does not divide [nt].  The snapshots are distinct, newly
    allocated arrays: each one is absent from the heap before the run, and
    after the run the one kept at step [t] holds the field that [t]
    successive calls of the stepper return from the initial field.  No
    array that existed before the run, the initial field included, is
    changed. *)
Theorem drivers_snapshot_log
    (h : heap) (C_initial : loc) (C0 : list R) (U D k dx dt : R) (nt : Z) :
  h !! C_initial = Some C0 -> (2 <= length C0)%nat -> dx <> 0%R ->
  (0 <= nt)%Z ->
  snapshot_log (fun C => advection_step C U dx dt)
               (simulate_advection_loop C_initial U dx dt nt)
               h C_initial 10 nt dt /\
  snapshot_log (fun C => diffusion_step C D dx dt)
               (simulate_diffusion_loop C_initial D dx dt nt)
               h C_initial 40 nt dt /\
  snapshot_log (fun C => reaction_step C k dt)
               (simulate_reaction_loop C_initial k dt nt)
               h C_initial 20 nt dt /\
  snapshot_log (fun C => adr_step C U D k dx dt)
               (simulate_adr_loop C_initial U D k dx dt nt)
               h C_initial 100 nt dt.
Proof.
  intros HC Hn Hdx Hnt. split; [|split; [|split]].
  - eapply snapshot_log_intro;
      [now apply advection_functional | lia | done | exact HC | simpl; lia].
  - eapply snapshot_log_intro;
      [now apply diffusion_functional | lia | done | exact HC | done].
  - eapply snapshot_log_intro;
      [apply reaction_functional | lia | done | exact HC | done].
  - eapply snapshot_log_intro;
      [now apply adr_functional | lia | done | exact HC | done].
Qed.

Lemma drivers_snapshot_log_witness :
  let h : heap := {[1%positive := [0; 1; 0]%R]} in
  snapshot_log (fun C => advection_step C 1 1 (1 / 2))
               (simulate_advection_loop 1%positive 1 1 (1 / 2) 100)
               h 1%positive 10 100 (1 / 2) /\
  snapshot_log (fun C => diffusion_step C 1 1 (1 / 2))
               (simulate_diffusion_loop 1%positive 1 1 (1 / 2) 100)
               h 1%positive 40 100 (1 / 2) /\
  snapshot_log (fun C => reaction_step C 1 (1 / 2))
               (simulate_reaction_loop 1%positive 1 (1 / 2) 100)
               h 1%positive 20 100 (1 / 2) /\
  snapshot_log (fun C => adr_step C 1 1 1 1 (1 / 2))
               (simulate_adr_loop 1%positive 1 1 1 1 (1 / 2) 100)
               h 1%positive 100 100 (1 / 2).
Proof.
  intros h.
  apply (drivers_snapshot_log h 1%positive [0; 1; 0]%R 1 1 1 1 (1 / 2) 100).
  - reflexivity.
  - simpl. lia.
  - lra.
  - lia.
Defined.

Lemma iter_reaction_array (n : nat) (C0 : list R) k dt :
  Nat.iter n (fun C => reaction_array C k dt) C0 =
    map (fun c => c * exp (- k * (INR n * dt)))%R C0.
Proof.
  induction n as [|n IH].
  - simpl. rewrite <- (map_id C0) at 1. apply map_ext. intros c.
    replace (- k * (0 * dt))%R with 0%R by ring. rewrite exp_0. ring.
  - rewrite Nat.iter_succ, IH. unfold reaction_array. rewrite map_map.
    apply map_ext. intros c. rewrite S_INR.
    replace (- k * ((INR n + 1) * dt))%R
      with (- k * (INR n * dt) + - k * dt)%R by ring.
    rewrite exp_plus. ring.
Qed.

(** X15. Every snapshot of the reaction driver is the analytical solution
    at its own recorded time: the snapshot kept with time [time] is
    [C_initial * exp (-k * time)], entry by entry.  The initial field is
    unchanged by the run. *)
Theorem simulate_reaction_analytic
    (h : heap) (C_initial : loc) (C0 : list R) (k dt : R) (nt : Z) :
  h !! C_initial = Some C0 -> (0 <= nt)%Z ->
  exists results times (h' : heap),
    simulate_reaction_loop C_initial k dt nt h = (inr (results, times), h') /\
    Forall2 (fun p time =>
               h' !! p = Some (map (fun c => ReactionCases.C_t c k time) C0))
            results times /\
    h' !! C_initial = Some C0.
Proof.
  intros HC Hnt.
  destruct (simulate_spec _ _ _ (reaction_functional k dt) 20 nt dt
              ltac:(lia) h C_initial C0 HC I Hnt)
    as (results & h' & Erun & Hframe & Hcont & _ & _).
  exists results, (0%R :: map (fun t => IZR t * dt)%R (recorded 20 nt)), h'.
  split; [exact Erun|].
  split; [|rewrite Hframe; [done | now rewrite HC]].
  inversion Hcont as [|p0 t0 rs ts [_ H0] Hrest]; subst.
  constructor.
  - rewrite H0. f_equal. cbn [Nat.iter Z.to_nat].
    rewrite <- (map_id C0) at 1. apply map_ext. intros c.
    unfold ReactionCases.C_t.
    replace (- k * 0)%R with 0%R by ring. rewrite exp_0. ring.
  - apply Forall2_fmap_r. eapply Forall2_impl; [exact Hrest|].
    intros p t [Ht Hp]. cbn. rewrite Hp, iter_reaction_array.
    f_equal. apply map_ext. intros c. unfold ReactionCases.C_t.
    rewrite INR_IZR_INZ, Z2Nat.id by done. reflexivity.
Qed.

Lemma simulate_reaction_analytic_witness :
  exists results times (h' : heap),
    simulate_reaction_loop 1%positive 1 (1 / 2) 100
                           {[1%positive := [0; 1; 0]%R]}
      = (inr (results, times), h') /\
    Forall2 (fun p time =>
               h' !! p = Some (map (fun c => ReactionCases.C_t c 1 time)
                                   [0; 1; 0]%R))
            results times /\
    h' !! 1%positive = Some [0; 1; 0]%R.
Proof.
  apply (simulate_reaction_analytic {[1%positive := [0; 1; 0]%R]} 1%positive
           [0; 1; 0]%R 1 (1 / 2) 100).
  - reflexivity.
  - lia.
Defined.

Lemma snapshots_invariant (h' : heap) (Q : list R -> Prop)
    (F : list R -> list R) (C0 : list R) results (ts : list Z) :
  (forall C, Q C -> Q (F C)) -> Q C0 ->
  Forall2 (fun p t =>
             (0 <= t)%Z /\ h' !! p = Some (Nat.iter (Z.to_nat t) F C0))
          results ts ->
  Forall (fun p => exists A, h' !! p = Some A /\ Q A) results.
Proof.
  intros HF H0 Hcont. induction Hcont as [|p t rs ts [_ Hp] _ IH].
  - constructor.
  - constructor; [|exact IH].
    exists (Nat.iter (Z.to_nat t) F C0). split; [exact Hp|].
    now apply iter_invariant.
Qed.

(** X16. Every snapshot of the diffusion driver has the length and the
    total mass of the initial field. *)
Theorem simulate_diffusion_conserves_mass
    (h : heap) (C_initial : loc) (C0 : list R) (D dx dt : R) (nt : Z) :
  h !! C_initial = Some C0 -> (2 <= length C0)%nat -> dx <> 0%R ->
  (0 <= nt)%Z ->
  exists results times (h' : heap),
    simulate_diffusion_loop C_initial D dx dt nt h
      = (inr (results, times), h') /\
    Forall (fun p => exists A,
              h' !! p = Some A /\
              length A = length C0 /\ mass dx A = mass dx C0) results.
Proof.
  intros HC Hn Hdx Hnt.
  destruct (simulate_spec _ _ _ (diffusion_functional D dx dt Hdx) 40 nt dt
              ltac:(lia) h C_initial C0 HC Hn Hnt)
    as (results & h' & Erun & _ & Hcont & _ & _).
  exists results, (0%R :: map (fun t => IZR t * dt)%R (recorded 40 nt)), h'.
  split; [exact Erun|].
  apply (snapshots_invariant h'
           (fun A => length A = length C0 /\ mass dx A = mass dx C0)
           (fun C => diffusion_array C D dx dt) C0 results
           (0%Z :: recorded 40 nt)); [|done|exact Hcont].
  intros C [HlC HmC]. split; [now rewrite length_diffusion_array|].
  unfold mass in *. rewrite total_diffusion_array by lia. exact HmC.
Qed.

Lemma simulate_diffusion_conserves_mass_witness :
  exists results times (h' : heap),
    simulate_diffusion_loop 1%positive 2 1 (1 / 8) 200
                            {[1%positive := [0; 1; 0]%R]}
      = (inr (results, times), h') /\
    Forall (fun p => exists A,
              h' !! p = Some A /\
              length A = length [0; 1; 0]%R /\
              mass 1 A = mass 1 [0; 1; 0]%R) results.
Proof.
  apply (simulate_diffusion_conserves_mass {[1%positive := [0; 1; 0]%R]}
           1%positive [0; 1; 0]%R 2 1 (1 / 8) 200).
  - reflexivity.
  - simpl. lia.
  - lra.
  - lia.
Defined.

(** X17. Under a Courant number between 0 and 1, every snapshot of the
    advection driver stays within the bounds of the initial field. *)
Theorem simulate_advection_bounded
    (h : heap) (C_initial : loc) (C0 : list R) (U dx dt a b : R) (nt : Z) :
  h !! C_initial = Some C0 -> (1 <= length C0)%nat -> dx <> 0%R ->
  (0 <= U * (dt / dx) <= 1)%R ->
  Forall (fun v => a <= v <= b)%R C0 -> (0 <= nt)%Z ->
  exists results times (h' : heap),
    simulate_advection_loop C_initial U dx dt nt h
      = (inr (results, times), h') /\
    Forall (fun p => exists A,
              h' !! p = Some A /\ Forall (fun v => a <= v <= b)%R A) results.
Proof.
  intros HC Hn Hdx Hc Hab Hnt.
  destruct (simulate_spec _ _ _ (advection_functional U dx dt Hdx) 10 nt dt
              ltac:(lia) h C_initial C0 HC Hn Hnt)
    as (results & h' & Erun & _ & Hcont & _ & _).
  exists results, (0%R :: map (fun t => IZR t * dt)%R (recorded 10 nt)), h'.
  split; [exact Erun|].
  apply (snapshots_invariant h' (Forall (fun v => a <= v <= b)%R)
           (fun C => advection_array C U dx dt) C0 results
           (0%Z :: recorded 10 nt)); [|done|exact Hcont].
  intros C HCab. now apply advection_array_within.
Qed.

Lemma simulate_advection_bounded_witness :
  exists results times (h' : heap),
    simulate_advection_loop 1%positive 1 1 (1 / 2) 100
                            {[1%positive := [0; 1; 0]%R]}
      = (inr (results, times), h') /\
    Forall (fun p => exists A,
              h' !! p = Some A /\ Forall (fun v => 0 <= v <= 1)%R A) results.
Proof.
  apply (simulate_advection_bounded {[1%positive := [0; 1; 0]%R]}
           1%positive [0; 1; 0]%R 1 1 (1 / 2) 0 1 100).
  - reflexivity.
  - simpl. lia.
  - lra.
  - lra.
  - repeat (apply List.Forall_cons; [lra|]). apply List.Forall_nil.
  - lia.
Defined.

(** ** The time steps of the drivers *)

(** X18. The time step of [simulate_advection], [safety * dx / U], makes
    the Courant number [U*dt/dx] equal to the safety factor (0.5 in the
    notebook, not below it); a zero velocity raises ZeroDivisionError. *)
Theorem advection_time_step_courant (safety U dx : R) :
  (U <> 0%R -> dx <> 0%R ->
   exists dt, advection_time_step safety U dx = inr dt /\
              (U * (dt / dx))%R = safety) /\
  (U = 0%R -> advection_time_step safety U dx = inl ZeroDivisionError).
Proof.
  split.
  - intros HU Hdx. exists (safety * dx / U)%R.
    split; [now apply float_div_ok | field; done].
  - intros ->. apply float_div_zero.
Qed.

Lemma advection_time_step_courant_witness :
  exists dt, advection_time_step 0.5 1 (100 / 200) = inr dt /\
             (1 * (dt / (100 / 200)))%R = 0.5%R.
Proof.
  apply (advection_time_step_courant 0.5 1 (100 / 200)); lra.
Defined.

(** X19. The time step of [simulate_diffusion], [safety * dx^2 / D], makes
    the diffusion number [D*dt/dx^2] equal to the safety factor (0.25 in
    the notebook, half the stability limit); a zero D raises
    ZeroDivisionError. *)
Theorem diffusion_time_step_number (safety D dx : R) :
  (D <> 0%R -> dx <> 0%R ->
   exists dt, diffusion_time_step safety D dx = inr dt /\
              (D * (dt / dx ^ 2))%R = safety) /\
  (D = 0%R -> diffusion_time_step safety D dx = inl ZeroDivisionError).
Proof.
  split.
  - intros HD Hdx. exists (safety * dx ^ 2 / D)%R.
    split; [now apply float_div_ok | field; done].
  - intros ->. apply float_div_zero.
Qed.

Lemma diffusion_time_step_number_witness :
  exists dt, diffusion_time_step 0.25 2 (100 / 200) = inr dt /\
             (2 * (dt / (100 / 200) ^ 2))%R = 0.25%R.
Proof.
  apply (diffusion_time_step_number 0.25 2 (100 / 200)); lra.
Defined.

Lemma adr_time_step_numbers (safety U D dx : R) :
  (0 < U)%R -> (0 < D)%R -> (0 < dx)%R -> (0 <= safety)%R ->
  exists dt,
    adr_time_step safety U D dx = inr dt /\
    (0 <= dt)%R /\
    (0 <= U * (dt / dx) <= safety)%R /\
    (0 <= D * (dt / dx ^ 2) <= safety / 2)%R /\
    ((U * (dt / dx))%R = safety \/ (D * (dt / dx ^ 2))%R = (safety / 2)%R).
Proof.
  intros HU HD Hdx Hs.
  exists (safety * Rmin (dx / U) (dx ^ 2 / (2 * D)))%R.
  split.
  { unfold adr_time_step. now rewrite !float_div_ok by lra. }
  assert (0 < dx / U)%R as Ha by (now apply Rdiv_lt_0_compat).
  assert (0 < dx ^ 2 / (2 * D))%R as Hb
    by (apply Rdiv_lt_0_compat; [nra | lra]).
  assert (forall m, (U * (safety * m / dx))%R
                    = (safety * (m / (dx / U)))%R) as Ec
    by (intros m; field; lra).
  assert (forall m, (D * (safety * m / dx ^ 2))%R
                    = (safety / 2 * (m / (dx ^ 2 / (2 * D))))%R) as Er
    by (intros m; field; lra).
  set (A := (dx / U)%R) in *. set (B := (dx ^ 2 / (2 * D))%R) in *.
  rewrite Ec, Er.
  assert (forall m, (0 < m)%R -> (m / m)%R = 1%R) as Hone
    by (intros m Hm; field; lra).
  assert (forall x y, (0 < y)%R -> (0 <= x <= y)%R -> (0 <= x / y <= 1)%R)
    as Hfrac.
  { intros x y Hy [Hx0 Hxy]. split.
    - apply Rmult_le_pos; [done|]. left. now apply Rinv_0_lt_compat.
    - apply (Rmult_le_reg_r y); [done|]. unfold Rdiv.
      rewrite Rmult_assoc, Rinv_l by lra. lra. }
  destruct (Rle_dec A B) as [Hle|Hgt].
  - rewrite Rmin_left by done. rewrite (Hone A Ha).
    pose proof (Hfrac A B Hb ltac:(lra)) as [H1 H2].
    repeat split; nra.
  - rewrite Rmin_right by lra. rewrite (Hone B Hb).
    pose proof (Hfrac B A Ha ltac:(lra)) as [H1 H2].
    repeat split; nra.
Qed.

(** X20. For positive U, D and dx and a non-negative safety factor the
    time step of [simulate_adr] is non-negative, keeps the Courant number
    at most [safety] and the diffusion number at most [safety / 2], one of
    the two bounds being attained. *)
Theorem adr_time_step_stable (safety U D dx : R) :
  (0 < U)%R -> (0 < D)%R -> (0 < dx)%R -> (0 <= safety)%R ->
  exists dt,
    adr_time_step safety U D dx = inr dt /\
    (0 <= dt)%R /\
    (0 <= U * (dt / dx) <= safety)%R /\
    (0 <= D * (dt / dx ^ 2) <= safety / 2)%R /\
    ((U * (dt / dx))%R = safety \/ (D * (dt / dx ^ 2))%R = (safety / 2)%R).
Proof.
  intros HU HD Hdx Hs.
  destruct (adr_time_step_numbers safety U D dx HU HD Hdx Hs)
    as (dt & Edt & Hdt & Hc & Hr & Hmin).
  exists dt. split; [exact Edt|]. split; [exact Hdt|].
  split; [exact Hc|]. split; [exact Hr | exact Hmin].
Qed.

Lemma adr_time_step_stable_witness :
  exists dt,
    adr_time_step 0.25 1 2 (100 / 200) = inr dt /\
    (0 <= dt)%R /\
    (0 <= 1 * (dt / (100 / 200)) <= 0.25)%R /\
    (0 <= 2 * (dt / (100 / 200) ^ 2) <= 0.25 / 2)%R /\
    ((1 * (dt / (100 / 200)))%R = 0.25%R \/
     (2 * (dt / (100 / 200) ^ 2))%R = (0.25 / 2)%R).
Proof.
  apply (adr_time_step_stable 0.25 1 2 (100 / 200)); lra.
Defined.

Lemma adr_array_within C U D k dx dt b :
  (2 <= length C)%nat ->
  (0 <= U * (dt / dx))%R -> (0 <= D * (dt / dx ^ 2))%R -> (0 <= k * dt)%R ->
  (U * (dt / dx) + 2 * (D * (dt / dx ^ 2)) + k * dt <= 1)%R ->
  Forall (fun v => 0 <= v <= b)%R C ->
  Forall (fun v => 0 <= v <= b)%R (adr_array C U D k dx dt).
Proof.
  intros Hn Hc Hr Hk Hsum Hab.
  assert (forall j, (j < length C)%nat -> (0 <= nth j C 0 <= b)%R) as Hat
    by (intros j Hj; now apply (Forall_at (fun v => 0 <= v <= b)%R)).
  apply Forall_tabulated. intros i Hi. rewrite length_adr_array in Hi.
  rewrite adr_array_nth by lia.
  repeat case_decide; [apply Hat; lia | apply Hat; lia |].
  unfold adr_update.
  set (c := (U * (dt / dx))%R) in *.
  set (r := (D * (dt / dx ^ 2))%R) in *.
  set (x := nth i C 0%R). set (y := nth (i - 1) C 0%R).
  set (z := nth (i + 1) C 0%R).
  assert (0 <= x <= b)%R as Hx by (apply Hat; lia).
  assert (0 <= y <= b)%R as Hy by (apply Hat; lia).
  assert (0 <= z <= b)%R as Hz by (apply Hat; lia).
  replace (x + - U * (dt / dx) * (x - y) + r * (z - 2 * x + y)
           + - k * dt * x)%R
    with ((1 - c - 2 * r - k * dt) * x + (c + r) * y + r * z)%R
    by (unfold c; ring).
  apply weighted3_sub_bounds; lra.
Qed.

(** X21. The combined driver with the time step of [simulate_adr]: for
    positive U, D and dx, a safety factor between 0 and 1/4 and a decay
    rate with [0 <= k*dt <= 1/2], every snapshot stays within [0, b] when
    the initial field does. *)
Theorem simulate_adr_bounded
    (h : heap) (C_initial : loc) (C0 : list R)
    (safety U D k dx dt b : R) (nt : Z) :
  h !! C_initial = Some C0 -> (2 <= length C0)%nat ->
  (0 < U)%R -> (0 < D)%R -> (0 < dx)%R -> (0 <= safety <= 1 / 4)%R ->
  adr_time_step safety U D dx = inr dt ->
  (0 <= k * dt <= 1 / 2)%R ->
  Forall (fun v => 0 <= v <= b)%R C0 -> (0 <= nt)%Z ->
  exists results times (h' : heap),
    simulate_adr_loop C_initial U D k dx dt nt h
      = (inr (results, times), h') /\
    Forall (fun p => exists A,
              h' !! p = Some A /\ Forall (fun v => 0 <= v <= b)%R A) results.
Proof.
  intros HC Hn HU HD Hdx Hs Hdt Hk Hab Hnt.
  destruct (adr_time_step_numbers safety U D dx HU HD Hdx ltac:(lra))
    as (dt' & Edt & _ & Hc & Hr & _).
  rewrite Hdt in Edt. injection Edt as <-.
  assert (dx <> 0%R) as Hdx0 by lra.
  destruct (simulate_spec _ _ _ (adr_functional U D k dx dt Hdx0) 100 nt dt
              ltac:(lia) h C_initial C0 HC Hn Hnt)
    as (results & h' & Erun & _ & Hcont & _ & _).
  exists results, (0%R :: map (fun t => IZR t * dt)%R (recorded 100 nt)), h'.
  split; [exact Erun|].
  apply (snapshots_invariant h'
           (fun A => (2 <= length A)%nat /\ Forall (fun v => 0 <= v <= b)%R A)
           (fun C => adr_array C U D k dx dt) C0 results
           (0%Z :: recorded 100 nt)) in Hcont.
  - eapply Forall_impl; [exact Hcont|].
    intros p (A & HA & _ & HQ). now exists A.
  - intros C [HlC HCab]. split; [now rewrite length_adr_array|].
    apply adr_array_within; try done; lra.
  - done.
Qed.

Lemma simulate_adr_bounded_witness :
  exists results times (h' : heap),
    simulate_adr_loop 1%positive 1 2 0.02 (100 / 200) 0.015625 500
                      {[1%positive := [0; 1; 0]%R]}
      = (inr (results, times), h') /\
    Forall (fun p => exists A,
              h' !! p = Some A /\ Forall (fun v => 0 <= v <= 1)%R A) results.
Proof.
  apply (simulate_adr_bounded {[1%positive := [0; 1; 0]%R]} 1%positive
           [0; 1; 0]%R 0.25 1 2 0.02 (100 / 200) 0.015625 1 500).
  - reflexivity.
  - simpl. lia.
  - lra.
  - lra.
  - lra.
  - lra.
  - unfold adr_time_step. rewrite !float_div_ok by lra. f_equal.
    rewrite Rmin_right by lra. lra.
  - lra.
  - repeat (apply List.Forall_cons; [lra|]). apply List.Forall_nil.
  - lia.
Defined.

(** ** The grid and the initial pulse *)

Lemma linspace_nth start stop num i :
  (i < num)%nat ->
  nth i (linspace start stop num) 0%R =
    (start + INR i * ((stop - start) / (INR num - 1)))%R.
Proof.
  intros Hi. unfold linspace. apply nth_lookup_Some.
  rewrite list_lookup_fmap, lookup_seq_lt by done. reflexivity.
Qed.

(** X22. [np.linspace(0, L, nx)] with at least two points runs from 0 to L
    in equal steps of [L/(nx-1)].  For a non-zero L this is not the
    [dx = L/nx] that the drivers pass to the steppers. *)
Theorem linspace_grid (L : R) (nx : nat) :
  (2 <= nx)%nat ->
  length (linspace 0 L nx) = nx /\
  nth 0 (linspace 0 L nx) 0%R = 0%R /\
  nth (nx - 1) (linspace 0 L nx) 0%R = L /\
  (forall i, (i + 1 < nx)%nat ->
     (nth (i + 1) (linspace 0 L nx) 0 - nth i (linspace 0 L nx) 0)%R
       = (L / (INR nx - 1))%R) /\
  (L <> 0%R -> (L / (INR nx - 1))%R <> (L / INR nx)%R).
Proof.
  intros Hn.
  assert (2 <= INR nx)%R as Hnx by (apply (le_INR 2); lia).
  repeat apply conj.
  - unfold linspace. now rewrite length_map, length_seq.
  - rewrite linspace_nth by lia. simpl. ring.
  - rewrite linspace_nth by lia. rewrite minus_INR by lia. simpl.
    field. lra.
  - intros i Hi. rewrite !linspace_nth by lia. rewrite plus_INR. simpl.
    field. lra.
  - intros HL E.
    apply (Rmult_eq_compat_r (INR nx * (INR nx - 1))) in E.
    field_simplify in E; lra.
Qed.

Lemma linspace_grid_witness :
  length (linspace 0 100 200) = 200%nat /\
  nth 0 (linspace 0 100 200) 0%R = 0%R /\
  nth (200 - 1) (linspace 0 100 200) 0%R = 100%R /\
  (forall i, (i + 1 < 200)%nat ->
     (nth (i + 1) (linspace 0 100 200) 0 - nth i (linspace 0 100 200) 0)%R
       = (100 / (INR 200 - 1))%R) /\
  (100 <> 0 -> (100 / (INR 200 - 1)) <> (100 / INR 200))%R.
Proof.
  apply (linspace_grid 100 200). lia.
Defined.

Lemma C_0_exponent_nonpos sigma mu x :
  (- 0.5 * ((x - mu) / sigma) ^ 2 <= 0)%R.
Proof. pose proof (pow2_ge_0 ((x - mu) / sigma)). lra. Qed.

Lemma exp_le_1 (e : R) : (e <= 0)%R -> (exp e <= 1)%R.
Proof.
  intros [Hlt | ->]; [|rewrite exp_0; lra].
  left. rewrite <- exp_0. now apply exp_increasing.
Qed.

Lemma exp_eq_1 (e : R) : exp e = 1%R <-> e = 0%R.
Proof.
  split; [|intros ->; apply exp_0].
  intros E. apply exp_inv. now rewrite exp_0.
Qed.

(** X23. The Gaussian initial pulse of the drivers, for a non-zero sigma:
    every entry lies in (0, 1]; an entry is 1 exactly where the grid point
    is [mu]; and the profile is symmetric about [mu]. *)
Theorem gaussian_pulse_shape (x : list R) (mu sigma : R) :
  sigma <> 0%R ->
  length (gaussian_pulse x mu sigma) = length x /\
  Forall (fun v => 0 < v <= 1)%R (gaussian_pulse x mu sigma) /\
  (forall i, (i < length x)%nat ->
     nth i (gaussian_pulse x mu sigma) 0%R = 1%R <-> nth i x 0%R = mu) /\
  (forall d, C_0 sigma mu (mu + d) = C_0 sigma mu (mu - d)).
Proof.
  intros Hs.
  assert (forall i, (i < length x)%nat ->
            nth i (gaussian_pulse x mu sigma) 0%R
              = C_0 sigma mu (nth i x 0%R)) as Hnth.
  { intros i Hi. unfold gaussian_pulse. apply nth_lookup_Some.
    rewrite list_lookup_fmap.
    destruct (lookup_lt_is_Some_2 x i Hi) as [v Hv].
    now rewrite Hv, (nth_lookup_Some _ _ _ _ Hv). }
  repeat apply conj.
  - apply length_map.
  - apply Forall_tabulated. intros i Hi.
    unfold gaussian_pulse in Hi. rewrite length_map in Hi.
    rewrite Hnth by done. unfold C_0.
    split; [apply exp_pos | apply exp_le_1, C_0_exponent_nonpos].
  - intros i Hi. rewrite Hnth by done. unfold C_0. rewrite exp_eq_1.
    split.
    + intros E.
      assert (((nth i x 0 - mu) / sigma) ^ 2 = 0)%R as E2 by lra.
      assert ((nth i x 0 - mu) / sigma = 0)%R as E1.
      { destruct (Req_dec ((nth i x 0 - mu) / sigma)%R 0%R) as [|Hne]; [done|].
        exfalso. apply (pow_nonzero _ 2) in Hne. lra. }
      unfold Rdiv in E1. apply Rmult_integral in E1 as [E1|E1]; [lra|].
      exfalso. now apply (Rinv_neq_0_compat sigma).
    + intros ->. replace (mu - mu)%R with 0%R by ring.
      unfold Rdiv. rewrite Rmult_0_l. simpl. ring.
  - intros d. unfold C_0. f_equal.
    replace (mu + d - mu)%R with d by ring.
    replace (mu - d - mu)%R with (- d)%R by ring.
    unfold Rdiv. ring.
Qed.

Lemma gaussian_pulse_shape_witness :
  length (gaussian_pulse [0; 20; 40]%R 20 5) = length [0; 20; 40]%R /\
  Forall (fun v => 0 < v <= 1)%R (gaussian_pulse [0; 20; 40]%R 20 5) /\
  (forall i, (i < length [0; 20; 40]%R)%nat ->
     nth i (gaussian_pulse [0; 20; 40]%R 20 5) 0%R = 1%R <->
     nth i [0; 20; 40]%R 0%R = 20%R) /\
  (forall d, C_0 5 20 (20 + d) = C_0 5 20 (20 - d)).
Proof.
  apply (gaussian_pulse_shape [0; 20; 40]%R 20 5). lra.
Defined.

(** ** The analytical solutions *)

Lemma advection_solution_translate sigma mu_0 U t x :
  AdvectionCases.C_t sigma mu_0 U t x = C_0 sigma mu_0 (x - U * t).
Proof.
  unfold AdvectionCases.C_t, AdvectionCases.mu_t, C_0.
  now replace (x - (mu_0 + U * t))%R with (x - U * t - mu_0)%R by ring.
Qed.

(** X24. The analytical solution of pure advection is the initial pulse
    moved by [velocity * time] without deformation, and at Courant number
    one the numerical step agrees with it: on a grid of spacing dx with
    [U*dt = dx], [advection_step] applied to the sampled initial pulse
    returns, at every i >= 1, the analytical solution at time dt. *)
Theorem advection_step_exact_translation
    (h : heap) (pC : loc) (x : list R) (sigma mu_0 U dx dt : R) :
  h !! pC = Some (gaussian_pulse x mu_0 sigma) ->
  (1 <= length x)%nat -> dx <> 0%R -> (U * dt)%R = dx ->
  (forall i, (1 <= i < length x)%nat ->
     nth i x 0%R = (nth (i - 1) x 0 + dx)%R) ->
  (forall time y,
     AdvectionCases.C_t sigma mu_0 U time y
       = C_0 sigma mu_0 (y - U * time)) /\
  exists C',
    returns_array (advection_step pC U dx dt) h C' /\
    forall i, (1 <= i < length x)%nat ->
      nth i C' 0%R = AdvectionCases.C_t sigma mu_0 U dt (nth i x 0%R).
Proof.
  intros HC Hn Hdx Hc Hgrid.
  split; [intros; apply advection_solution_translate|].
  assert (length (gaussian_pulse x mu_0 sigma) = length x) as Hlen
    by apply length_map.
  assert (forall i, (i < length x)%nat ->
            nth i (gaussian_pulse x mu_0 sigma) 0%R
              = C_0 sigma mu_0 (nth i x 0%R)) as Hnth.
  { intros i Hi. unfold gaussian_pulse. apply nth_lookup_Some.
    rewrite list_lookup_fmap.
    destruct (lookup_lt_is_Some_2 x i Hi) as [v Hv].
    now rewrite Hv, (nth_lookup_Some _ _ _ _ Hv). }
  exists (advection_array (gaussian_pulse x mu_0 sigma) U dx dt).
  split; [apply advection_step_returns; [done | lia | done]|].
  intros i Hi. rewrite advection_array_S by lia. unfold upwind_update.
  replace (U * (dt / dx))%R with 1%R.
  2:{ replace (U * (dt / dx))%R with (U * dt / dx)%R by (unfold Rdiv; ring).
      rewrite Hc. unfold Rdiv. now rewrite Rinv_r. }
  rewrite !Hnth by lia. rewrite advection_solution_translate.
  rewrite (Hgrid i Hi), Hc.
  replace (nth (i - 1) x 0 + dx - dx)%R with (nth (i - 1) x 0%R) by ring.
  ring.
Qed.

Lemma advection_step_exact_translation_witness :
  (forall time y,
     AdvectionCases.C_t 5 20 2 time y = C_0 5 20 (y - 2 * time)) /\
  exists C',
    returns_array (advection_step 1%positive 2 1 (1 / 2))
                  {[1%positive := gaussian_pulse [19; 20; 21]%R 20 5]} C' /\
    forall i, (1 <= i < length [19; 20; 21]%R)%nat ->
      nth i C' 0%R
        = AdvectionCases.C_t 5 20 2 (1 / 2) (nth i [19; 20; 21]%R 0%R).
Proof.
  apply (advection_step_exact_translation
           {[1%positive := gaussian_pulse [19; 20; 21]%R 20 5]} 1%positive
           [19; 20; 21]%R 5 20 2 1 (1 / 2)).
  - reflexivity.
  - simpl. lia.
  - lra.
  - lra.
  - intros [|[|[|i]]] Hi; simpl in *; try lra; lia.
Defined.

Lemma sigma_t_square sigma_0 D t :
  (0 <= sigma_0 ^ 2 + 2 * D * t)%R ->
  (sigma_t sigma_0 D t ^ 2)%R = (sigma_0 ^ 2 + 2 * D * t)%R.
Proof.
  intros H. unfold sigma_t. now apply pow2_sqrt.
Qed.

(** X25. The analytical diffusion solution composes in time: for
    sigma0 > 0, D >= 0 and times t1, t2 >= 0, widening for t1 and then,
    from that width, for t2 gives the width at t1 + t2, and the amplitudes
    multiply. *)
Theorem pure_diffusion_composes (sigma_0 D t1 t2 : R) :
  (0 < sigma_0)%R -> (0 <= D)%R -> (0 <= t1)%R -> (0 <= t2)%R ->
  sigma_t (sigma_t sigma_0 D t1) D t2 = sigma_t sigma_0 D (t1 + t2) /\
  (amplitude sigma_0 D t1 * amplitude (sigma_t sigma_0 D t1) D t2)%R
    = amplitude sigma_0 D (t1 + t2).
Proof.
  intros Hs HD H1 H2.
  pose proof (Rmult_le_pos D t1 HD H1) as Hp1.
  assert (sigma_t (sigma_t sigma_0 D t1) D t2 = sigma_t sigma_0 D (t1 + t2))
    as E.
  { unfold sigma_t at 1. rewrite sigma_t_square by nra.
    unfold sigma_t. f_equal. ring. }
  split; [exact E|].
  unfold amplitude. rewrite E.
  pose proof (sigma_t_pos sigma_0 D t1 Hs HD H1).
  pose proof (sigma_t_pos sigma_0 D (t1 + t2) Hs HD ltac:(lra)).
  field. lra.
Qed.

Lemma pure_diffusion_composes_witness :
  sigma_t (sigma_t 5 2 5) 2 10 = sigma_t 5 2 (5 + 10) /\
  (amplitude 5 2 5 * amplitude (sigma_t 5 2 5) 2 10)%R
    = amplitude 5 2 (5 + 10).
Proof.
  apply (pure_diffusion_composes 5 2 5 10); lra.
Defined.

(** X26. For sigma0 > 0, D >= 0 and t >= 0 the analytical diffusion
    profile has its amplitude in (0, 1], never exceeds it, attains it at
    [x = mu], and a later time gives a wider pulse of smaller amplitude. *)
Theorem pure_diffusion_profile (sigma_0 mu D t t' : R) :
  (0 < sigma_0)%R -> (0 <= D)%R -> (0 <= t <= t')%R ->
  (0 < amplitude sigma_0 D t <= 1)%R /\
  (forall x, 0 < C_t sigma_0 mu D t x <= amplitude sigma_0 D t)%R /\
  C_t sigma_0 mu D t mu = amplitude sigma_0 D t /\
  (sigma_t sigma_0 D t <= sigma_t sigma_0 D t')%R /\
  (amplitude sigma_0 D t' <= amplitude sigma_0 D t)%R.
Proof.
  intros Hs HD [Ht Htt'].
  pose proof (sigma_t_pos sigma_0 D t Hs HD Ht) as Hpos.
  pose proof (sigma_t_pos sigma_0 D t' Hs HD ltac:(lra)) as Hpos'.
  pose proof (Rmult_le_pos D t HD Ht) as Hp.
  assert (sigma_0 <= sigma_t sigma_0 D t)%R as Hge.
  { rewrite <- (sqrt_pow2 sigma_0) at 1 by lra.
    unfold sigma_t. apply sqrt_le_1_alt. lra. }
  assert (sigma_t sigma_0 D t <= sigma_t sigma_0 D t')%R as Hmono.
  { unfold sigma_t. apply sqrt_le_1_alt.
    assert (D * t <= D * t')%R by (now apply Rmult_le_compat_l). lra. }
  assert (0 < amplitude sigma_0 D t <= 1)%R as Hamp.
  { unfold amplitude. split; [now apply Rdiv_lt_0_compat|].
    apply (Rmult_le_reg_r (sigma_t sigma_0 D t)); [done|].
    unfold Rdiv. rewrite Rmult_assoc, Rinv_l by lra. lra. }
  split; [exact Hamp|]. split.
  { intros x. unfold C_t. split.
    - apply Rmult_lt_0_compat; [apply Hamp | apply exp_pos].
    - pose proof
        (exp_le_1 _ (C_0_exponent_nonpos (sigma_t sigma_0 D t) mu x)).
      destruct Hamp as [Ha _]. nra. }
  split.
  { unfold C_t. replace (mu - mu)%R with 0%R by ring.
    unfold Rdiv. rewrite Rmult_0_l.
    replace (- 0.5 * 0 ^ 2)%R with 0%R by (simpl; ring).
    rewrite exp_0. ring. }
  split; [exact Hmono|].
  unfold amplitude, Rdiv. apply Rmult_le_compat_l; [lra|].
  now apply Rinv_le_contravar.
Qed.

Lemma pure_diffusion_profile_witness :
  (0 < amplitude 5 2 5 <= 1)%R /\
  (forall x, 0 < C_t 5 50 2 5 x <= amplitude 5 2 5)%R /\
  C_t 5 50 2 5 50 = amplitude 5 2 5 /\
  (sigma_t 5 2 5 <= sigma_t 5 2 10)%R /\
  (amplitude 5 2 10 <= amplitude 5 2 5)%R.
Proof.
  apply (pure_diffusion_profile 5 50 2 5 10); lra.
Defined.

Lemma exp_half_life (k : R) : k <> 0%R -> exp (- k * (ln 2 / k)) = (1 / 2)%R.
Proof.
  intros Hk. replace (- k * (ln 2 / k))%R with (- ln 2)%R by (field; done).
  rewrite exp_Ropp, exp_ln by lra. lra.
Qed.

(** X27. For a non-zero rate k the half-life [np.log(2)/k] does what its
    name says: after one half-life the analytical reaction solution is half
    the initial value and the remaining fraction is 50 percent, and every
    further half-life halves the value again. *)
Theorem half_life_halves (c_0 k t : R) :
  k <> 0%R ->
  ReactionCases.C_t c_0 k (ReactionCases.half_life k) = (c_0 / 2)%R /\
  ReactionCases.fraction k (ReactionCases.half_life k) = 50%R /\
  ReactionCases.C_t c_0 k (t + ReactionCases.half_life k)
    = (ReactionCases.C_t c_0 k t / 2)%R.
Proof.
  intros Hk. pose proof (exp_half_life k Hk) as E.
  unfold ReactionCases.C_t, ReactionCases.fraction, ReactionCases.half_life.
  split; [rewrite E; lra|]. split; [rewrite E; lra|].
  replace (- k * (t + ln 2 / k))%R with (- k * t + - k * (ln 2 / k))%R by ring.
  rewrite exp_plus, E. lra.
Qed.

Lemma half_life_halves_witness :
  ReactionCases.C_t 8 0.05 (ReactionCases.half_life 0.05) = (8 / 2)%R /\
  ReactionCases.fraction 0.05 (ReactionCases.half_life 0.05) = 50%R /\
  ReactionCases.C_t 8 0.05 (10 + ReactionCases.half_life 0.05)
    = (ReactionCases.C_t 8 0.05 10 / 2)%R.
Proof.
  apply (half_life_halves 8 0.05 10). lra.
Defined.

Lemma sigma_t_no_diffusion sigma_0 t :
  (0 < sigma_0)%R -> sigma_t sigma_0 0 t = sigma_0.
Proof.
  intros Hs. unfold sigma_t.
  replace (sigma_0 ^ 2 + 2 * 0 * t)%R with (sigma_0 ^ 2)%R by ring.
  apply sqrt_pow2. lra.
Qed.

(** X28. The approximate solution of [adr_interactive] reduces to the
    three analytical solutions when the other two coefficients are zero
    (for sigma0 > 0), equals the initial pulse at time 0, and is in general
    the pure-diffusion profile centred at [mu_0 + velocity*time] times the
    decay factor [exp (-reaction*time)]. *)
Theorem adr_approximation_reduces
    (sigma_0 mu_0 velocity diffusion reaction time x : R) :
  (0 < sigma_0)%R ->
  AdrInteractive.C_t sigma_0 mu_0 velocity 0 0 time x
    = AdvectionCases.C_t sigma_0 mu_0 velocity time x /\
  AdrInteractive.C_t sigma_0 mu_0 0 diffusion 0 time x
    = C_t sigma_0 mu_0 diffusion time x /\
  AdrInteractive.C_t sigma_0 mu_0 0 0 reaction time x
    = ReactionCases.C_t (C_0 sigma_0 mu_0 x) reaction time /\
  AdrInteractive.C_t sigma_0 mu_0 velocity diffusion reaction 0 x
    = C_0 sigma_0 mu_0 x /\
  AdrInteractive.C_t sigma_0 mu_0 velocity diffusion reaction time x
    = (C_t sigma_0 (mu_0 + velocity * time) diffusion time x
       * exp (- reaction * time))%R.
Proof.
  intros Hs.
  pose proof (sigma_t_no_diffusion sigma_0 time Hs) as E0.
  pose proof (sigma_t_initial sigma_0 diffusion Hs) as Ei.
  assert (exp (- 0 * time) = 1)%R as Ex0
    by (replace (- 0 * time)%R with 0%R by ring; apply exp_0).
  assert (sigma_0 / sigma_0 = 1)%R as E1 by (field; lra).
  unfold AdrInteractive.C_t, AdrInteractive.amplitude, AdrInteractive.mu_t.
  split; [|split; [|split; [|split]]].
  - unfold AdvectionCases.C_t, AdvectionCases.mu_t.
    rewrite E0, E1, Ex0. ring.
  - unfold C_t, amplitude. rewrite Ex0.
    replace (mu_0 + 0 * time)%R with mu_0 by ring. ring.
  - unfold ReactionCases.C_t, C_0. rewrite E0, E1.
    replace (mu_0 + 0 * time)%R with mu_0 by ring. ring.
  - unfold C_0. rewrite Ei, E1.
    replace (- reaction * 0)%R with 0%R by ring. rewrite exp_0.
    replace (mu_0 + velocity * 0)%R with mu_0 by ring. ring.
  - unfold C_t, amplitude. ring.
Qed.

Lemma adr_approximation_reduces_witness :
  AdrInteractive.C_t 5 20 1 0 0 40 60 = AdvectionCases.C_t 5 20 1 40 60 /\
  AdrInteractive.C_t 5 20 0 2 0 40 60 = C_t 5 20 2 40 60 /\
  AdrInteractive.C_t 5 20 0 0 0.02 40 60
    = ReactionCases.C_t (C_0 5 20 60) 0.02 40 /\
  AdrInteractive.C_t 5 20 1 2 0.02 0 60 = C_0 5 20 60 /\
  AdrInteractive.C_t 5 20 1 2 0.02 40 60
    = (C_t 5 (20 + 1 * 40) 2 40 60 * exp (- (0.02) * 40))%R.
Proof.
  apply (adr_approximation_reduces 5 20 1 2 0.02 40 60). lra.
Defined.

(** X29. The dimensionless numbers of [adr_interactive]: for non-zero
    diffusion and velocity they are [Pe = velocity*L/diffusion] and
    [Da = reaction*L/velocity], with [Pe * Da = reaction*L^2/diffusion];
    a zero diffusion or a zero velocity raises ZeroDivisionError, so the
    pure cases D = 0 and U = 0 cannot be run through this function. *)
Theorem adr_dimensionless_numbers (L velocity diffusion reaction : R) :
  (diffusion <> 0%R -> velocity <> 0%R ->
   exists Pe Da,
     AdrInteractive.dimensionless L velocity diffusion reaction
       = inr (Pe, Da) /\
     Pe = (velocity * L / diffusion)%R /\
     Da = (reaction * L / velocity)%R /\
     (Pe * Da)%R = (reaction * L ^ 2 / diffusion)%R) /\
  (diffusion = 0%R \/ velocity = 0%R ->
   AdrInteractive.dimensionless L velocity diffusion reaction
     = inl ZeroDivisionError).
Proof.
  unfold AdrInteractive.dimensionless. split.
  - intros HD HU. exists (velocity * L / diffusion)%R,
                         (reaction * L / velocity)%R.
    rewrite !float_div_ok by done.
    split; [done|]. split; [done|]. split; [done|]. field. done.
  - intros H. destruct (decide (diffusion = 0%R)) as [->|HD].
    + now rewrite float_div_zero.
    + destruct H as [H | ->]; [done|].
      rewrite float_div_ok by done. now rewrite float_div_zero.
Qed.

Lemma adr_dimensionless_numbers_witness :
  (exists Pe Da,
     AdrInteractive.dimensionless 100 1 2 0.02 = inr (Pe, Da) /\
     Pe = (1 * 100 / 2)%R /\ Da = (0.02 * 100 / 1)%R /\
     (Pe * Da)%R = (0.02 * 100 ^ 2 / 2)%R) /\
  AdrInteractive.dimensionless 100 1 0 0.02 = inl ZeroDivisionError.
Proof.
  split.
  - apply (adr_dimensionless_numbers 100 1 2 0.02); lra.
  - apply (adr_dimensionless_numbers 100 1 0 0.02). left. reflexivity.
Defined.
